(** * copilot-api: model mapping, tracing and the Anthropic completion handler

  A shallow embedding of
    - src/lib/model-mapping.ts   (module [ModelMapping]),
    - src/lib/state.ts           (record [State]),
    - src/lib/trace.ts           (module [Trace]),
    - src/routes/messages/handler.ts (module [Handler]),
  with the JavaScript string primitives they rely on (module [JsString]).

  Strings are [string]s whose characters stand for code units below 256;
  a [Map<string, string>] is a [gmap string string]; a promise that
  rejects or a call that throws is an [Outcome] with constructor [Raised].
  Diagnostics written through consola are modelled in [ModelMapping] only,
  where they are the sole side effect of otherwise pure functions. *)

From Stdlib Require Import ZArith Ascii String List Lia.
From stdpp Require Import base gmap strings list fin_maps.

Open Scope string_scope.
Open Scope list_scope.
Open Scope Z_scope.

(* ===================================================================== *)
(** ** JavaScript string primitives *)
(* ===================================================================== *)

Module JsString.

(** WhiteSpace and LineTerminator code units below 256, the ones
    [String.prototype.trim] removes: TAB, LF, VT, FF, CR, SP, NBSP. *)
Definition isWhiteSpace (c : ascii) : bool :=
  let n := N_of_ascii c in
  ((9 <=? n) && (n <=? 13) || (n =? 32) || (n =? 160))%N.

Definition isEmpty (s : string) : bool :=
  match s with EmptyString => true | String _ _ => false end.

(** [!s] for a value of type [string | undefined]. *)
Definition falsy (s : option string) : bool :=
  match s with None => true | Some s => isEmpty s end.

Definition truthy (s : option string) : bool := negb (falsy s).

Fixpoint trimStart (s : string) : string :=
  match s with
  | EmptyString => EmptyString
  | String c r => if isWhiteSpace c then trimStart r else s
  end.

Fixpoint trimEnd (s : string) : string :=
  match s with
  | EmptyString => EmptyString
  | String c r =>
      let r' := trimEnd r in
      if isWhiteSpace c && isEmpty r' then EmptyString else String c r'
  end.

Definition trim (s : string) : string := trimEnd (trimStart s).

(** [s.split(sep)] for a one-character separator: never an empty list,
    [split sep ""] is [[""]]. *)
Fixpoint split (sep : ascii) (s : string) : list string :=
  match s with
  | EmptyString => [EmptyString]
  | String c r =>
      if Ascii.eqb c sep then EmptyString :: split sep r
      else match split sep r with
           | [] => [String c EmptyString]
           | h :: t => String c h :: t
           end
  end.

(** [s.indexOf(c)] for a one-character needle; [-1] when absent. *)
Fixpoint indexOf (s : string) (c : ascii) : Z :=
  match s with
  | EmptyString => -1
  | String a r =>
      if Ascii.eqb a c then 0
      else let i := indexOf r c in if i =? -1 then -1 else i + 1
  end.

Fixpoint take (n : nat) (s : string) : string :=
  match n, s with
  | S k, String c r => String c (take k r)
  | _, _ => EmptyString
  end.

Fixpoint drop (n : nat) (s : string) : string :=
  match n, s with
  | S k, String _ r => drop k r
  | _, _ => s
  end.

(** A relative index of [slice]: negative counts from the end, and the
    result is clamped to [0 .. len]. *)
Definition relativeIndex (len i : Z) : Z :=
  if i <? 0 then Z.max (len + i) 0 else Z.min i len.

(** [s.slice(start, end)]; [end = None] is the one-argument form. *)
Definition slice (s : string) (start : Z) (end_ : option Z) : string :=
  let len := Z.of_nat (String.length s) in
  let from := relativeIndex len start in
  let to := match end_ with None => len | Some e => relativeIndex len e end in
  take (Z.to_nat (Z.max (to - from) 0)) (drop (Z.to_nat from) s).

(** Whether the first, respectively last, character is white space. *)
Definition startsWithSpace (s : string) : bool :=
  match s with EmptyString => false | String c _ => isWhiteSpace c end.

Fixpoint endsWithSpace (s : string) : bool :=
  match s with
  | EmptyString => false
  | String c EmptyString => isWhiteSpace c
  | String _ r => endsWithSpace r
  end.

Fixpoint contains (c : ascii) (s : string) : bool :=
  match s with
  | EmptyString => false
  | String a r => Ascii.eqb a c || contains c r
  end.

End JsString.

(* ===================================================================== *)
(** ** src/lib/model-mapping.ts *)
(* ===================================================================== *)

Module ModelMapping.
Import JsString.

(** The lines the module writes through consola. *)
Inductive LogEntry :=
| InvalidFormat (trimmedPair : string)      (* warn: Expected "source:target" *)
| InvalidMapping (trimmedPair : string)     (* warn: both must be non-empty *)
| MappingApplied (modelName mappedModel : string)   (* warn, verbose only *)
| LoadedMappings (size : nat).              (* info *)

(** One iteration of the [for (const pair of pairs)] loop. *)
Definition parsePair (acc : gmap string string * list LogEntry) (pair : string)
  : gmap string string * list LogEntry :=
  let '(mappings, logs) := acc in
  let trimmedPair := trim pair in
  if isEmpty trimmedPair then acc
  else
    let colonIndex := indexOf trimmedPair ":"%char in
    if colonIndex =? -1 then (mappings, logs ++ [InvalidFormat trimmedPair])
    else
      let source := trim (slice trimmedPair 0 (Some colonIndex)) in
      let target := trim (slice trimmedPair (colonIndex + 1) None) in
      if isEmpty source || isEmpty target
      then (mappings, logs ++ [InvalidMapping trimmedPair])
      else (<[source := target]> mappings, logs).

Definition parseModelMappingsLogged (envValue : option string)
  : gmap string string * list LogEntry :=
  match envValue with
  | None => (∅, [])
  | Some v =>
      if isEmpty v || isEmpty (trim v) then (∅, [])
      else fold_left parsePair (split ","%char v) (∅, [])
  end.

Definition parseModelMappings (envValue : option string) : gmap string string :=
  fst (parseModelMappingsLogged envValue).

Record Mapped := { model : string; mapped : bool }.

Definition applyModelMappingLogged (modelName : string)
    (mappings : gmap string string) (verbose : bool) : Mapped * list LogEntry :=
  let mappedModel := mappings !! modelName in
  if truthy mappedModel then
    let target := default EmptyString mappedModel in
    ({| model := target; mapped := true |},
     if verbose then [MappingApplied modelName target] else [])
  else ({| model := modelName; mapped := false |}, []).

Definition applyModelMapping (modelName : string)
    (mappings : gmap string string) (verbose : bool) : Mapped :=
  fst (applyModelMappingLogged modelName mappings verbose).

(** Module-level state: the two [let] bindings, and the [Map] objects
    allocated so far. A reference is the position of the object in the
    heap, so two references are the same object iff they are equal. *)
Record Store := {
  heap : list (gmap string string);
  cachedMappings : option nat;
  cachedEnvValue : option string;
}.

Definition initialStore : Store :=
  {| heap := []; cachedMappings := None; cachedEnvValue := None |}.

Definition deref (σ : Store) (ref : nat) : gmap string string :=
  default ∅ (heap σ !! ref).

Definition getModelMappings (envValue : option string) (σ : Store)
  : nat * Store * list LogEntry :=
  let refreshed :=
    let parsed := parseModelMappingsLogged envValue in
    let ref := length (heap σ) in
    (ref,
     {| heap := heap σ ++ [fst parsed];
        cachedMappings := Some ref;
        cachedEnvValue := envValue |},
     snd parsed ++
       (if decide (0 < size (fst parsed))%nat
        then [LoadedMappings (size (fst parsed))] else [])) in
  match cachedMappings σ with
  | Some ref =>
      if decide (cachedEnvValue σ = envValue) then (ref, σ, []) else refreshed
  | None => refreshed
  end.

Definition clearModelMappingsCache (σ : Store) : Store :=
  {| heap := heap σ; cachedMappings := None; cachedEnvValue := None |}.

(** What a client of the module can do, with the value of
    [process.env.MODEL_MAPPINGS] at the time of each call. *)
Inductive Call :=
| CallGet (envValue : option string)
| CallClear.

Definition call (σ : Store) (c : Call) : Store :=
  match c with
  | CallGet envValue => snd (fst (getModelMappings envValue σ))
  | CallClear => clearModelMappingsCache σ
  end.

Definition after (calls : list Call) : Store := fold_left call calls initialStore.

(** The cache refers to a map parsed from the cached environment value. *)
Definition consistent (σ : Store) : Prop :=
  ∀ ref, cachedMappings σ = Some ref →
         heap σ !! ref = Some (parseModelMappings (cachedEnvValue σ)).

(** An entry of a parsed map: non-empty, with no white space at either
    end. *)
Definition clean (s : string) : Prop :=
  isEmpty s = false ∧ startsWithSpace s = false ∧ endsWithSpace s = false.

End ModelMapping.

(* ===================================================================== *)
(** ** Calls that may throw, promises that may reject *)
(* ===================================================================== *)

Inductive Outcome (A : Type) : Type :=
| Returned (value : A)
| Raised (error : string).
Arguments Returned {A} value.
Arguments Raised {A} error.

Definition andThen {A B : Type} (m : Outcome A) (k : A → Outcome B) : Outcome B :=
  match m with
  | Returned a => k a
  | Raised e => Raised e
  end.

(** [try { body } catch (error) { handler }] *)
Definition tryCatch {A : Type} (body : Outcome A) (handler : string → Outcome A)
  : Outcome A :=
  match body with
  | Returned a => Returned a
  | Raised e => handler e
  end.

Definition returns {A : Type} (m : Outcome A) : bool :=
  match m with Returned _ => true | Raised _ => false end.

(* ===================================================================== *)
(** ** src/lib/state.ts (the fields the modelled code reads) *)
(* ===================================================================== *)

Record State := {
  manualApprove : bool;
  verbose : bool;
  traceEnabled : bool;
  traceFolder : option string;
}.

Definition state : State :=
  {| manualApprove := false; verbose := false;
     traceEnabled := false; traceFolder := None |}.

(* ===================================================================== *)
(** ** src/lib/trace.ts *)
(* ===================================================================== *)

Module Trace.
Import JsString.

Section Trace.
Context {Value : Type}.

(** What [JSON.stringify] is applied to: a traced payload, or the object
    [{ streaming: true, chunks }] that [StreamTracer.finish] builds. *)
Inductive Traced :=
| Payload (v : Value)
| StreamingChunks (chunks : list Value).

(** The host functions the module calls. [getTimestamp] stands for the
    string computed from the clock at the time of the call; [writeFile]
    and [mkdir] are node:fs/promises, [join] is node:path. *)
Record Host := {
  JSON_stringify : Traced → Outcome string;
  mkdir : string → Outcome unit;
  writeFile : string → string → Outcome unit;
  join : string → string → string;
  getTimestamp : string;
}.

Variable st : State.
Variable host : Host.

Definition tracingOff : bool :=
  negb (traceEnabled st) || falsy (traceFolder st).

Definition folder : string := default EmptyString (traceFolder st).

Definition ensureTraceFolder : Outcome unit :=
  if tracingOff then Returned tt
  else tryCatch (mkdir host folder) (λ _, Returned tt).

Definition traceRequest (request : Value) : Outcome (option string) :=
  if tracingOff then Returned None
  else
    let timestamp := getTimestamp host in
    let filename := timestamp +:+ ".req" in
    let filepath := join host folder filename in
    tryCatch
      (andThen (JSON_stringify host (Payload request)) (λ content,
       andThen (writeFile host filepath content) (λ _,
       Returned (Some timestamp))))
      (λ _, Returned None).

Definition traceResponse (response : Value) (timestamp : option string)
  : Outcome unit :=
  if tracingOff || falsy timestamp then Returned tt
  else
    let filename := default EmptyString timestamp +:+ ".resp" in
    let filepath := join host folder filename in
    tryCatch
      (andThen (JSON_stringify host (Payload response)) (λ content,
       writeFile host filepath content))
      (λ _, Returned tt).

(** [class StreamTracer] *)
Record StreamTracer := {
  chunks : list Value;
  timestamp : option string;
}.

Definition newStreamTracer (timestamp : option string) : StreamTracer :=
  {| chunks := []; timestamp := timestamp |}.

Definition addChunk (chunk : Value) (this : StreamTracer) : StreamTracer :=
  if negb (traceEnabled st) then this
  else {| chunks := chunks this ++ [chunk]; timestamp := timestamp this |}.

Definition finish (this : StreamTracer) : Outcome unit :=
  if tracingOff || falsy (timestamp this) then Returned tt
  else
    let filename := default EmptyString (timestamp this) +:+ ".resp" in
    let filepath := join host folder filename in
    tryCatch
      (andThen (JSON_stringify host (StreamingChunks (chunks this))) (λ content,
       writeFile host filepath content))
      (λ _, Returned tt).

End Trace.

Arguments Traced : clear implicits.
Arguments Host : clear implicits.
Arguments StreamTracer : clear implicits.

End Trace.

(* ===================================================================== *)
(** ** Wire types of the two protocols *)
(* ===================================================================== *)

Module AnthropicTypes.

(** Modelled from the spec: the chunk type of create-chat-completions.ts
    is missing; one entry of [delta.tool_calls] of OpenAIChunk, with
    [function.name] and [function.arguments] flattened. *)
Record ToolCallDelta := {
  index : Z;
  id : option string;
  function_name : option string;
  function_arguments : option string;
}.

(** Modelled from the spec: the chunk type of create-chat-completions.ts
    is missing; [choices[0].delta] of OpenAIChunk. *)
Record Delta := {
  role : option string;
  content : option string;
  tool_calls : option (list ToolCallDelta);
}.

(** Modelled from the spec: the chunk type of create-chat-completions.ts
    is missing; OpenAIChunk with its first choice, and the model name the
    skeleton of [message_start] carries. *)
Record ChatCompletionChunk := {
  chunk_model : string;
  delta : Delta;
  finish_reason : option string;
}.

(** Modelled from the spec: anthropic-types.ts is missing; the content
    blocks a [content_block_start] event opens, a text block with its text
    and a tool-use block with its identity and an empty input. *)
Inductive ContentBlock :=
| text_block (text : string)
| tool_use_block (id name : option string).

(** Modelled from the spec: anthropic-types.ts is missing; the two deltas
    of a [content_block_delta] event. *)
Inductive BlockDelta :=
| text_delta (text : string)
| input_json_delta (partial_json : string).

(** Modelled from the spec: anthropic-types.ts is missing; AnthropicEvent,
    the tagged union of the six events of a stream. *)
Inductive AnthropicEvent :=
| message_start (model : string)
| content_block_start (index : Z) (content_block : ContentBlock)
| content_block_delta (index : Z) (delta : BlockDelta)
| content_block_stop (index : Z)
| message_delta (stop_reason : string)
| message_stop.

(** [event.type], the tag of the union. *)
Definition type (e : AnthropicEvent) : string :=
  match e with
  | message_start _ => "message_start"
  | content_block_start _ _ => "content_block_start"
  | content_block_delta _ _ => "content_block_delta"
  | content_block_stop _ => "content_block_stop"
  | message_delta _ => "message_delta"
  | message_stop => "message_stop"
  end.

(** Modelled from the spec: anthropic-types.ts is missing; the value
    type of the tool-call mapping of StreamState. *)
Record ToolCallState := {
  content_block_index : Z;
  tool_id : option string;
  tool_name : option string;
  name_sent : bool;
}.

(** [AnthropicStreamState], with the four fields of the object literal in
    handler.ts; [toolCalls] is keyed by the backend's tool-call index. *)
Record AnthropicStreamState := {
  messageStartSent : bool;
  contentBlockIndex : Z;
  contentBlockOpen : bool;
  toolCalls : gmap Z ToolCallState;
}.

End AnthropicTypes.

(* ===================================================================== *)
(** ** The stream event translator *)
(* ===================================================================== *)

Module StreamTranslation.
Import AnthropicTypes.

(** Modelled from the spec: stream-translation.ts is missing; the update
    of block_open. *)
Definition setOpen (open : bool) (s : AnthropicStreamState) : AnthropicStreamState :=
  {| messageStartSent := messageStartSent s;
     contentBlockIndex := contentBlockIndex s;
     contentBlockOpen := open;
     toolCalls := toolCalls s |}.

(** Modelled from the spec: stream-translation.ts is missing; "close any
    open block": a [content_block_stop] for the current index when a block
    is open. *)
Definition closeOpenBlock (s : AnthropicStreamState)
  : list AnthropicEvent * AnthropicStreamState :=
  if contentBlockOpen s
  then ([content_block_stop (contentBlockIndex s)], setOpen false s)
  else ([], s).

(** Modelled from the spec: stream-translation.ts is missing; opening a
    block increments current_block_index and sets block_open. *)
Definition openBlock (s : AnthropicStreamState) : AnthropicStreamState :=
  {| messageStartSent := messageStartSent s;
     contentBlockIndex := contentBlockIndex s + 1;
     contentBlockOpen := true;
     toolCalls := toolCalls s |}.

(** Modelled from the spec: stream-translation.ts is missing; the open
    block is a tool-use block when a recorded tool call owns the current
    index. *)
Definition isToolBlockOpen (s : AnthropicStreamState) : bool :=
  contentBlockOpen s &&
  existsb (λ kv, content_block_index (snd kv) =? contentBlockIndex s)
          (map_to_list (toolCalls s)).

(** Modelled from the spec: stream-translation.ts is missing; a block is
    open and it is a text block. *)
Definition textBlockOpen (s : AnthropicStreamState) : bool :=
  contentBlockOpen s && negb (isToolBlockOpen s).

(** Modelled from the spec: stream-translation.ts is missing; step 1 of
    the algorithm. *)
Definition startMessage (chunk : ChatCompletionChunk) (s : AnthropicStreamState)
  : list AnthropicEvent * AnthropicStreamState :=
  if messageStartSent s then ([], s)
  else ([message_start (chunk_model chunk)],
        {| messageStartSent := true;
           contentBlockIndex := contentBlockIndex s;
           contentBlockOpen := contentBlockOpen s;
           toolCalls := toolCalls s |}).

(** Modelled from the spec: stream-translation.ts is missing; step 2 of
    the algorithm, for a non-empty text fragment. *)
Definition translateText (fragment : string) (s : AnthropicStreamState)
  : list AnthropicEvent * AnthropicStreamState :=
  let '(opening, s1) :=
    if textBlockOpen s then ([], s)
    else
      let '(closing, s0) := closeOpenBlock s in
      let s1 := openBlock s0 in
      (closing ++ [content_block_start (contentBlockIndex s1) (text_block "")], s1) in
  (opening ++ [content_block_delta (contentBlockIndex s1) (text_delta fragment)], s1).

(** Modelled from the spec: stream-translation.ts is missing; step 3 of
    the algorithm, for one entry of [delta.tool_calls]. *)
Definition translateToolCall (acc : list AnthropicEvent * AnthropicStreamState)
    (entry : ToolCallDelta) : list AnthropicEvent * AnthropicStreamState :=
  let '(events, s) := acc in
  let '(opening, s1, blockIndex) :=
    match toolCalls s !! index entry with
    | Some known => ([], s, content_block_index known)
    | None =>
        let '(closing, s0) := closeOpenBlock s in
        let s1 := openBlock s0 in
        let blockIndex := contentBlockIndex s1 in
        (closing ++
           [content_block_start blockIndex
              (tool_use_block (id entry) (function_name entry))],
         {| messageStartSent := messageStartSent s1;
            contentBlockIndex := blockIndex;
            contentBlockOpen := true;
            toolCalls :=
              <[index entry :=
                  {| content_block_index := blockIndex;
                     tool_id := id entry;
                     tool_name := function_name entry;
                     name_sent := true |}]> (toolCalls s1) |},
         blockIndex)
    end in
  let fragment :=
    match function_arguments entry with
    | Some partial => [content_block_delta blockIndex (input_json_delta partial)]
    | None => []
    end in
  (events ++ opening ++ fragment, s1).

(** Modelled from the spec: stream-translation.ts is missing; the table
    from finish_reason to stop_reason. *)
Definition mapStopReason (finish_reason : string) : string :=
  if String.eqb finish_reason "stop" then "end_turn"
  else if String.eqb finish_reason "length" then "max_tokens"
  else if String.eqb finish_reason "tool_calls" then "tool_use"
  else if String.eqb finish_reason "content_filter" then "stop_sequence"
  else "end_turn".

(** Modelled from the spec: stream-translation.ts is missing; step 4 of
    the algorithm. *)
Definition finishMessage (reason : string) (s : AnthropicStreamState)
  : list AnthropicEvent * AnthropicStreamState :=
  let '(closing, s1) := closeOpenBlock s in
  (closing ++ [message_delta (mapStopReason reason); message_stop], s1).

(** Modelled from the spec: stream-translation.ts is missing; a delta
    with none of its fields present. *)
Definition isEmptyDelta (d : Delta) : bool :=
  match role d, content d, tool_calls d with
  | None, None, None => true
  | _, _, _ => false
  end.

(** Modelled from the spec: stream-translation.ts is missing; the
    per-chunk algorithm of the Stream Event Translator (steps 1 to 4), with
    its edge-case policy: a chunk with an empty delta and no finish_reason
    produces no event and leaves the state as it is. The state is returned
    instead of mutated in place. *)
Definition translateChunkToAnthropicEvents (chunk : ChatCompletionChunk)
    (s : AnthropicStreamState) : list AnthropicEvent * AnthropicStreamState :=
  if isEmptyDelta (delta chunk) && bool_decide (finish_reason chunk = None)
  then ([], s)
  else
    let '(ev1, s1) := startMessage chunk s in
    let '(ev2, s2) :=
      match content (delta chunk) with
      | Some fragment =>
          if JsString.isEmpty fragment then ([], s1) else translateText fragment s1
      | None => ([], s1)
      end in
    let '(ev3, s3) :=
      fold_left translateToolCall (default [] (tool_calls (delta chunk))) ([], s2) in
    let '(ev4, s4) :=
      match finish_reason chunk with
      | Some reason => finishMessage reason s3
      | None => ([], s3)
      end in
    (ev1 ++ ev2 ++ ev3 ++ ev4, s4).

(** How many events carry the type tag [tag]. *)
Definition typed (tag : string) (events : list AnthropicEvent) : nat :=
  length (filter (λ e, type e = tag) events).

(** Events other than [message_start] and [message_stop]. *)
Definition inner (events : list AnthropicEvent) : Prop :=
  Forall (λ e, type e ≠ "message_start" ∧ type e ≠ "message_stop") events.

End StreamTranslation.

(* ===================================================================== *)
(** ** src/routes/messages/handler.ts *)
(* ===================================================================== *)

Module Handler.
Import JsString AnthropicTypes.

(** [AnthropicMessagesPayload]: the handler reads and replaces [model]
    only; [rest] stands for every other field, carried along by the
    spread [{ ...anthropicPayload, model }]. *)
Record AnthropicMessagesPayload (Rest : Type) := {
  model : string;
  rest : Rest;
}.
Arguments model {Rest} _.
Arguments rest {Rest} _.

(** One raw event of the backend's server-sent-event stream. *)
Record RawEvent := { data : option string }.

(** What [createChatCompletions] resolves to: an object with its own
    properties, which yields [asyncIterator] when driven by [for await]. *)
Record BackendResponse (JsValue : Type) := {
  ownProperties : gmap string JsValue;
  asyncIterator : list RawEvent;
}.
Arguments ownProperties {JsValue} _.
Arguments asyncIterator {JsValue} _.

(** The argument of [stream.writeSSE]. *)
Module SSE.
Record Message := { event : string; data : string }.
End SSE.

(** The functions and types the handler imports from modules that are not
    part of the sources at hand, and the two JSON primitives. The two
    translators are taken as total; [JSON.parse] may throw. *)
Class Imports := {
  PayloadRest : Type;
  OpenAIPayload : Type;
  JsValue : Type;
  AnthropicResponse : Type;
  translateToOpenAI : AnthropicMessagesPayload PayloadRest → OpenAIPayload;
  translateToAnthropic : BackendResponse JsValue → AnthropicResponse;
  JSON_parse : string → Outcome ChatCompletionChunk;
  JSON_stringify : AnthropicEvent → string;
}.

(** [Object.hasOwn(response, "choices")] *)
Definition isNonStreaming {JsValue : Type} (response : BackendResponse JsValue) : bool :=
  bool_decide (is_Some (ownProperties response !! "choices")).

(** The literal [streamState] is initialised with. *)
Definition initialStreamState : AnthropicStreamState :=
  {| messageStartSent := false;
     contentBlockIndex := 0;
     contentBlockOpen := false;
     toolCalls := ∅ |}.

Section Handler.
Context `{Imports}.

(** The objects handed to the tracer. *)
Inductive TraceValue :=
| TracedRequest (original : AnthropicMessagesPayload PayloadRest)
| TracedResponse (openai : BackendResponse JsValue) (translated : AnthropicResponse)
| TracedChunk (openai : ChatCompletionChunk) (anthropic : AnthropicEvent).

(** What a run of the handler does to the outside, in order. *)
Inductive Effect :=
| RateLimitChecked
| RequestRead
| MappingsLookedUp
| RequestTraced (original : AnthropicMessagesPayload PayloadRest)
| ApprovalAwaited
| BackendCalled (payload : OpenAIPayload)
| ResponseTraced (openai : BackendResponse JsValue) (translated : AnthropicResponse)
| EventReceived (rawEvent : RawEvent)
| ChunkTranslated (chunk : ChatCompletionChunk) (events : list AnthropicEvent)
| SSEWritten (message : SSE.Message)
| TracerFinished (tracer : Trace.StreamTracer TraceValue).

Inductive Response :=
| JsonBody (body : AnthropicResponse)
| EventStream (messages : list SSE.Message).

(** An asynchronous computation: the effects performed so far, and how it
    settled. *)
Definition M (A : Type) : Type := list Effect * Outcome A.

Definition pure {A : Type} (a : A) : M A := ([], Returned a).

Definition bind {A B : Type} (m : M A) (k : A → M B) : M B :=
  match m with
  | (done, Returned a) => let '(more, r) := k a in (done ++ more, r)
  | (done, Raised e) => (done, Raised e)
  end.

Definition emit (e : Effect) : M unit := ([e], Returned tt).

Definition await {A : Type} (o : Outcome A) : M A := ([], o).

Local Notation "'let!' x ':=' m 'in' k" := (bind m (λ x, k))
  (at level 10, x name, m at level 100, k at level 200).

(** The behaviour of the outside during one request. *)
Record Env := {
  st : State;
  MODEL_MAPPINGS : option string;
  checkRateLimit : Outcome unit;
  requestJson : Outcome (AnthropicMessagesPayload PayloadRest);
  awaitApproval : Outcome unit;
  createChatCompletions : OpenAIPayload → Outcome (BackendResponse JsValue);
  host : Trace.Host TraceValue;
}.

Variable translateChunkToAnthropicEvents :
  ChatCompletionChunk → AnthropicStreamState →
  list AnthropicEvent * AnthropicStreamState.
Variable env : Env.

(** [if (mappings.size > 0) { ... }] *)
Definition applyMapping (mappings : gmap string string)
    (anthropicPayload : AnthropicMessagesPayload PayloadRest)
  : AnthropicMessagesPayload PayloadRest :=
  if decide (0 < size mappings)%nat then
    let r := ModelMapping.applyModelMapping (model anthropicPayload) mappings
               (verbose (st env)) in
    if ModelMapping.mapped r
    then {| model := ModelMapping.model r; rest := rest anthropicPayload |}
    else anthropicPayload
  else anthropicPayload.

Definition frame (event : AnthropicEvent) : SSE.Message :=
  {| SSE.event := type event; SSE.data := JSON_stringify event |}.

(** [for (const event of events) { ... }]; the transport accepts every
    message. *)
Fixpoint writeEvents (chunk : ChatCompletionChunk) (events : list AnthropicEvent)
    (streamTracer : Trace.StreamTracer TraceValue)
  : M (Trace.StreamTracer TraceValue) :=
  match events with
  | [] => pure streamTracer
  | event :: more =>
      let streamTracer := Trace.addChunk (st env) (TracedChunk chunk event) streamTracer in
      let! _ := emit (SSEWritten (frame event)) in
      writeEvents chunk more streamTracer
  end.

(** [for await (const rawEvent of response) { ... }] *)
Fixpoint forAwait (response : list RawEvent) (streamState : AnthropicStreamState)
    (streamTracer : Trace.StreamTracer TraceValue)
  : M (AnthropicStreamState * Trace.StreamTracer TraceValue) :=
  match response with
  | [] => pure (streamState, streamTracer)
  | rawEvent :: later =>
      let! _ := emit (EventReceived rawEvent) in
      if bool_decide (data rawEvent = Some "[DONE]") then pure (streamState, streamTracer)
      else if falsy (data rawEvent) then forAwait later streamState streamTracer
      else
        let! chunk := await (JSON_parse (default EmptyString (data rawEvent))) in
        let '(events, streamState) := translateChunkToAnthropicEvents chunk streamState in
        let! _ := emit (ChunkTranslated chunk events) in
        let! streamTracer := writeEvents chunk events streamTracer in
        forAwait later streamState streamTracer
  end.

(** The callback passed to [streamSSE]. *)
Definition streamCallback (response : list RawEvent) (traceTimestamp : option string)
  : M unit :=
  let streamState := initialStreamState in
  let streamTracer := Trace.newStreamTracer traceTimestamp in
  let! final := forAwait response streamState streamTracer in
  let streamTracer := snd final in
  let! _ := emit (TracerFinished streamTracer) in
  await (Trace.finish (st env) (host env) streamTracer).

Definition written (log : list Effect) : list SSE.Message :=
  omap (λ e, match e with SSEWritten m => Some m | _ => None end) log.

(** [streamSSE(c, callback)]: the response is the stream of the messages
    the callback writes; the stream closes when the callback settles. *)
Definition streamSSE (callback : M unit) : M Response :=
  (fst callback, Returned (EventStream (written (fst callback)))).

(** The handler from the request trace on, for the payload as it stands
    after the model-mapping block. *)
Definition complete (anthropicPayload : AnthropicMessagesPayload PayloadRest)
  : M Response :=
  let! _ := emit (RequestTraced anthropicPayload) in
  let! traceTimestamp :=
    await (Trace.traceRequest (st env) (host env) (TracedRequest anthropicPayload)) in
  let openAIPayload := translateToOpenAI anthropicPayload in
  let! _ :=
    if manualApprove (st env)
    then (let! _ := emit ApprovalAwaited in await (awaitApproval env))
    else pure tt in
  let! _ := emit (BackendCalled openAIPayload) in
  let! response := await (createChatCompletions env openAIPayload) in
  if isNonStreaming response then
    let anthropicResponse := translateToAnthropic response in
    let! _ := emit (ResponseTraced response anthropicResponse) in
    let! _ :=
      await (Trace.traceResponse (st env) (host env)
               (TracedResponse response anthropicResponse) traceTimestamp) in
    pure (JsonBody anthropicResponse)
  else streamSSE (streamCallback (asyncIterator response) traceTimestamp).

(** The map the handler reads through the reference [getModelMappings()]
    returns. *)
Definition currentMappings (σ : ModelMapping.Store) : gmap string string :=
  let '(ref, σ', _) := ModelMapping.getModelMappings (MODEL_MAPPINGS env) σ in
  ModelMapping.deref σ' ref.

Definition handleCompletion (σ : ModelMapping.Store)
  : ModelMapping.Store * M Response :=
  match checkRateLimit env with
  | Raised e => (σ, ([RateLimitChecked], Raised e))
  | Returned _ =>
      match requestJson env with
      | Raised e => (σ, ([RateLimitChecked; RequestRead], Raised e))
      | Returned anthropicPayload =>
          let '(ref, σ', _) := ModelMapping.getModelMappings (MODEL_MAPPINGS env) σ in
          let mappings := ModelMapping.deref σ' ref in
          (σ',
           let! _ := ([RateLimitChecked; RequestRead; MappingsLookedUp], Returned tt) in
           complete (applyMapping mappings anthropicPayload))
      end
  end.

(** *** Readings of a run, used to state its properties *)
(** The tracer after the inner loop has pushed one pair per event. *)
Definition fed (chunk : ChatCompletionChunk) (events : list AnthropicEvent)
    (streamTracer : Trace.StreamTracer TraceValue) : Trace.StreamTracer TraceValue :=
  fold_left (λ tracer event, Trace.addChunk (st env) (TracedChunk chunk event) tracer)
            events streamTracer.

(** The approval gate lets the request through: it is switched off, or
    the approval resolved. *)
Definition approved : bool :=
  negb (manualApprove (st env)) || returns (awaitApproval env).

(** The same request under another behaviour of the trace host. *)
Definition withHost (other : Trace.Host TraceValue) : Env :=
  {| st := st env;
     MODEL_MAPPINGS := MODEL_MAPPINGS env;
     checkRateLimit := checkRateLimit env;
     requestJson := requestJson env;
     awaitApproval := awaitApproval env;
     createChatCompletions := createChatCompletions env;
     host := other |}.

(** The effect of [streamTracer.finish()]. *)
Definition isFlush (e : Effect) : bool :=
  match e with TracerFinished _ => true | _ => false end.

(** What [traceRequest] settles with for the payload, [null] included. *)
Definition traceTimestamp (anthropicPayload : AnthropicMessagesPayload PayloadRest)
  : option string :=
  match Trace.traceRequest (st env) (host env) (TracedRequest anthropicPayload) with
  | Returned timestamp => timestamp
  | Raised _ => None
  end.

(** The effect of the approval gate, when it is switched on. *)
Definition gate : list Effect :=
  if manualApprove (st env) then [ApprovalAwaited] else [].

(** The effects of the response phase, after the backend call. *)
Definition responsePhase (e : Effect) : bool :=
  match e with
  | ResponseTraced _ _ | EventReceived _ | ChunkTranslated _ _
  | SSEWritten _ | TracerFinished _ => true
  | _ => false
  end.


(** The events the translator returned, in the order of its calls. *)
Definition produced (log : list Effect) : list AnthropicEvent :=
  flat_map (λ e, match e with ChunkTranslated _ events => events | _ => [] end) log.

(** The effects of handing [events] to the transport. *)
Definition handedOff (events : list AnthropicEvent) : list Effect :=
  map (λ event, SSEWritten (frame event)) events.

Definition isSentinel (rawEvent : RawEvent) : bool :=
  bool_decide (data rawEvent = Some "[DONE]").

(** Every raw event that is neither the sentinel nor without data carries
    the JSON text of a chunk. *)
Definition wellFormed (response : list RawEvent) : bool :=
  forallb (λ rawEvent,
             isSentinel rawEvent || falsy (data rawEvent) ||
             returns (JSON_parse (default EmptyString (data rawEvent))))
          response.

(** The chunks a response delivers to the translator: those before the
    sentinel, before the first text that does not parse, and with data. *)
Fixpoint delivered (response : list RawEvent) : list ChatCompletionChunk :=
  match response with
  | [] => []
  | rawEvent :: later =>
      if isSentinel rawEvent then []
      else if falsy (data rawEvent) then delivered later
      else match JSON_parse (default EmptyString (data rawEvent)) with
           | Returned chunk => chunk :: delivered later
           | Raised _ => []
           end
  end.

(** The translator called once per chunk, in order, on one state. *)
Fixpoint translateAll (chunks : list ChatCompletionChunk) (s : AnthropicStreamState)
  : list AnthropicEvent * AnthropicStreamState :=
  match chunks with
  | [] => ([], s)
  | chunk :: later =>
      let '(events, s1) := translateChunkToAnthropicEvents chunk s in
      let '(more, s2) := translateAll later s1 in
      (events ++ more, s2)
  end.

(** How many chunks carry a finish reason. *)
Definition finishing (chunks : list ChatCompletionChunk) : nat :=
  length (filter (λ c, is_Some (finish_reason c)) chunks).

(** How many messages carry the event tag [tag]. *)
Definition tagged (tag : string) (messages : list SSE.Message) : nat :=
  length (filter (λ m, SSE.event m = tag) messages).

End Handler.
End Handler.

(* ===================================================================== *)
(** ** src/lib/trace.ts: the name of a trace file *)
(* ===================================================================== *)

From Stdlib Require DecimalString.

Module Timestamp.
Import JsString.

(** [String(n)] for a non-negative integer: its decimal digits. *)
Definition String_ (n : nat) : string :=
  DecimalString.NilEmpty.string_of_uint (Nat.to_uint n).

(** The first [n] characters of [fill] repeated for ever, from [rest] on. *)
Fixpoint repeatChars (n : nat) (fill rest : string) : string :=
  match n with
  | O => EmptyString
  | S k =>
      match rest with
      | String c r => String c (repeatChars k fill r)
      | EmptyString =>
          match fill with
          | String c r => String c (repeatChars k fill r)
          | EmptyString => EmptyString
          end
      end
  end.

(** [s.padStart(targetLength, padString)] *)
Definition padStart (s : string) (targetLength : nat) (padString : string) : string :=
  if (targetLength <=? String.length s)%nat then s
  else repeatChars (targetLength - String.length s) padString padString +:+ s.

(** What the getters of [new Date()] return, in local time. *)
Record LocalTime := {
  getFullYear : nat;
  getMonth : nat;
  getDate : nat;
  getHours : nat;
  getMinutes : nat;
  getSeconds : nat;
  getMilliseconds : nat;
}.

(** [getTimestamp()], for the clock reading [now]. *)
Definition getTimestamp (now : LocalTime) : string :=
  let year := getFullYear now in
  let month := padStart (String_ (getMonth now + 1)) 2 "0" in
  let day := padStart (String_ (getDate now)) 2 "0" in
  let hours := padStart (String_ (getHours now)) 2 "0" in
  let minutes := padStart (String_ (getMinutes now)) 2 "0" in
  let seconds := padStart (String_ (getSeconds now)) 2 "0" in
  let millis := padStart (String_ (getMilliseconds now)) 3 "0" in
  String_ year +:+ month +:+ day +:+ "_" +:+ hours +:+ minutes +:+ seconds
    +:+ "_" +:+ millis.

(** The ranges of the getters: months count from 0, days from 1. *)
Definition inRange (now : LocalTime) : bool :=
  (getMonth now <? 12)%nat
  && (1 <=? getDate now)%nat && (getDate now <=? 31)%nat
  && (getHours now <? 24)%nat
  && (getMinutes now <? 60)%nat
  && (getSeconds now <? 60)%nat
  && (getMilliseconds now <? 1000)%nat.

(** A year written with four digits. *)
Definition fourDigitYear (now : LocalTime) : bool :=
  (1000 <=? getFullYear now)%nat && (getFullYear now <? 10 * 1000)%nat.

Definition isDigit (c : ascii) : bool :=
  let n := N_of_ascii c in ((48 <=? n) && (n <=? 57))%N.

(** A string against a pattern of digits ([true]) and underscores
    ([false]), character by character. *)
Fixpoint matches (pattern : list bool) (s : string) : bool :=
  match pattern, s with
  | [], EmptyString => true
  | digit :: pattern', String c r =>
      (if digit then isDigit c else Ascii.eqb c "_"%char) && matches pattern' r
  | _, _ => false
  end.

(** The format YYYYMMDD_HHmmss_SSS of the documentation. *)
Definition documentedFormat : list bool :=
  repeat true 8 ++ [false] ++ repeat true 6 ++ [false] ++ repeat true 3.

(** The number a string of digits writes, continuing from [acc]. *)
Fixpoint digitsFrom (acc : nat) (s : string) : nat :=
  match s with
  | EmptyString => acc
  | String c r => digitsFrom (10 * acc + (N.to_nat (N_of_ascii c) - 48))%nat r
  end.

(** The number a string of digits writes. *)
Definition digitsValue (s : string) : nat := digitsFrom 0 s.

(** The chronological order of clock readings: [Lt], [Eq] or [Gt]. *)
Definition chronological (a b : LocalTime) : comparison :=
  match Nat.compare (getFullYear a) (getFullYear b) with
  | Eq =>
    match Nat.compare (getMonth a) (getMonth b) with
    | Eq =>
      match Nat.compare (getDate a) (getDate b) with
      | Eq =>
        match Nat.compare (getHours a) (getHours b) with
        | Eq =>
          match Nat.compare (getMinutes a) (getMinutes b) with
          | Eq =>
            match Nat.compare (getSeconds a) (getSeconds b) with
            | Eq => Nat.compare (getMilliseconds a) (getMilliseconds b)
            | c => c
            end
          | c => c
          end
        | c => c
        end
      | c => c
      end
    | c => c
    end
  | c => c
  end.

End Timestamp.

(* ===================================================================== *)
(** ** Further readings of strings, stores and runs *)
(* ===================================================================== *)

Module Readings.
Import JsString AnthropicTypes Handler.

(** Every character is white space. *)
Fixpoint allWhite (s : string) : bool :=
  match s with
  | EmptyString => true
  | String c r => isWhiteSpace c && allWhite r
  end.

(** How often a character occurs. *)
Fixpoint occurrences (c : ascii) (s : string) : nat :=
  match s with
  | EmptyString => 0%nat
  | String a r => ((if Ascii.eqb a c then 1 else 0) + occurrences c r)%nat
  end.

(** Whether a raw event carries data, [!!rawEvent.data]. *)
Definition hasData (rawEvent : RawEvent) : bool := truthy (data rawEvent).

Section Readings.
Context `{Imports}.

(** The pairs [{ openai: chunk, anthropic: event }] of the translations
    recorded in a log, in order. *)
Definition pairs (log : list Effect) : list TraceValue :=
  flat_map (λ e, match e with
                 | ChunkTranslated chunk events => map (TracedChunk chunk) events
                 | _ => []
                 end) log.

(** The loop reads the response through without a throw: every raw event
    before the first sentinel that carries data carries a text
    [JSON.parse] accepts. What follows the sentinel is never looked at. *)
Fixpoint readable (response : list RawEvent) : bool :=
  match response with
  | [] => true
  | rawEvent :: later =>
      if isSentinel rawEvent then true
      else if falsy (data rawEvent) then readable later
      else match JSON_parse (default EmptyString (data rawEvent)) with
           | Returned _ => readable later
           | Raised _ => false
           end
  end.

(** The backend calls recorded in a log. *)
Definition backendCalls (log : list Effect) : list OpenAIPayload :=
  omap (λ e, match e with BackendCalled payload => Some payload | _ => None end) log.

End Readings.
End Readings.

(* ===================================================================== *)
(** ** A concrete request, for the examples *)
(* ===================================================================== *)

Module Demo.
Import AnthropicTypes Handler.

Definition textChunk : ChatCompletionChunk :=
  {| chunk_model := "gpt-4";
     delta := {| role := None; content := Some "Hello"; tool_calls := None |};
     finish_reason := None |}.

Definition stopChunk : ChatCompletionChunk :=
  {| chunk_model := "gpt-4";
     delta := {| role := None; content := None; tool_calls := None |};
     finish_reason := Some "stop" |}.

(** The payload types are cut down to the model name; the parser knows two
    texts and throws on every other one. *)
Definition imports : Imports :=
  {| PayloadRest := unit;
     OpenAIPayload := string;
     JsValue := unit;
     AnthropicResponse := unit;
     translateToOpenAI := λ payload, model payload;
     translateToAnthropic := λ _, tt;
     JSON_parse := λ text,
       if String.eqb text "text" then Returned textChunk
       else if String.eqb text "stop" then Returned stopChunk
       else Raised "SyntaxError";
     JSON_stringify := type |}.

(** A trace host on which every file operation fails. *)
Definition failingHost {Value : Type} : Trace.Host Value :=
  {| Trace.JSON_stringify := λ _, Returned "{}";
     Trace.mkdir := λ _, Raised "EACCES";
     Trace.writeFile := λ _ _, Raised "ENOSPC";
     Trace.join := λ dir file, dir +:+ "/" +:+ file;
     Trace.getTimestamp := "20251204_143052_123" |}.

Definition tracing : State :=
  {| manualApprove := true; verbose := false;
     traceEnabled := true; traceFolder := Some "traces" |}.

Definition stream : list RawEvent :=
  [ {| data := Some "text" |}; {| data := Some "stop" |};
    {| data := Some "[DONE]" |} ].

Definition streamingResponse : BackendResponse (@JsValue imports) :=
  {| ownProperties := ∅; asyncIterator := stream |}.

Definition request : AnthropicMessagesPayload (@PayloadRest imports) :=
  {| model := "claude-sonnet-4"; rest := tt |}.

Definition env : @Env imports :=
  {| st := tracing;
     MODEL_MAPPINGS := Some "claude-sonnet-4:claude-opus-4";
     checkRateLimit := Returned tt;
     requestJson := Returned request;
     awaitApproval := Returned tt;
     createChatCompletions := λ _, Returned streamingResponse;
     host := failingHost |}.

End Demo.

Module DemoMore.
Import AnthropicTypes Handler.

(** The request of [Demo.env] with the approval rejected. *)
Definition rejecting : @Env Demo.imports :=
  {| st := Demo.tracing;
     MODEL_MAPPINGS := MODEL_MAPPINGS Demo.env;
     checkRateLimit := Returned tt;
     requestJson := Returned Demo.request;
     awaitApproval := Raised "rejected";
     createChatCompletions := createChatCompletions Demo.env;
     host := Demo.failingHost |}.

(** The same request with no mappings configured. *)
Definition unmapped : @Env Demo.imports :=
  {| st := Demo.tracing;
     MODEL_MAPPINGS := None;
     checkRateLimit := Returned tt;
     requestJson := Returned Demo.request;
     awaitApproval := Returned tt;
     createChatCompletions := createChatCompletions Demo.env;
     host := Demo.failingHost |}.

(** The loop of [Demo.stream], and the tracer it returns. *)
Definition loop :=
  forAwait StreamTranslation.translateChunkToAnthropicEvents Demo.env Demo.stream
    initialStreamState (Trace.newStreamTracer None).

Definition finalTracer : Trace.StreamTracer (@TraceValue Demo.imports) :=
  match snd loop with
  | Returned final => snd final
  | Raised _ => Trace.newStreamTracer None
  end.

(** The clock reading of the example in the documentation of
    [getTimestamp], and one a millisecond later. *)
Definition documented : Timestamp.LocalTime :=
  {| Timestamp.getFullYear := 2025; Timestamp.getMonth := 11;
     Timestamp.getDate := 4; Timestamp.getHours := 14;
     Timestamp.getMinutes := 30; Timestamp.getSeconds := 52;
     Timestamp.getMilliseconds := 123 |}.

Definition later : Timestamp.LocalTime :=
  {| Timestamp.getFullYear := 2025; Timestamp.getMonth := 11;
     Timestamp.getDate := 4; Timestamp.getHours := 14;
     Timestamp.getMinutes := 30; Timestamp.getSeconds := 52;
     Timestamp.getMilliseconds := 124 |}.

End DemoMore.

(* ===================================================================== *)
(** * Properties *)
(* ===================================================================== *)

(** ** Strings *)

Module JsStringFacts.
Import JsString.

Lemma isEmpty_true (s : string) : isEmpty s = true ↔ s = EmptyString.
Proof. destruct s; simpl; split; congruence. Qed.

Lemma isEmpty_false (s : string) : isEmpty s = false ↔ s ≠ EmptyString.
Proof. destruct s; simpl; split; congruence. Qed.

Lemma trimStart_startsWithSpace (s : string) :
  startsWithSpace (trimStart s) = false.
Proof.
  induction s as [|c r IH]; simpl; [reflexivity|].
  destruct (isWhiteSpace c) eqn:Hc; simpl; [exact IH | exact Hc].
Qed.

Lemma trimEnd_endsWithSpace (s : string) :
  endsWithSpace (trimEnd s) = false.
Proof.
  induction s as [|c r IH]; simpl; [reflexivity|].
  destruct (isWhiteSpace c && isEmpty (trimEnd r)) eqn:Hc; simpl; [reflexivity|].
  destruct (trimEnd r) as [|c' r'] eqn:Hr; [|exact IH].
  simpl in Hc. by rewrite andb_true_r in Hc.
Qed.

Lemma trimEnd_startsWithSpace (s : string) :
  startsWithSpace s = false → startsWithSpace (trimEnd s) = false.
Proof.
  destruct s as [|c r]; simpl; [done|].
  intros Hc. rewrite Hc. simpl. exact Hc.
Qed.

Lemma trim_startsWithSpace (s : string) : startsWithSpace (trim s) = false.
Proof. apply trimEnd_startsWithSpace, trimStart_startsWithSpace. Qed.

Lemma trim_endsWithSpace (s : string) : endsWithSpace (trim s) = false.
Proof. apply trimEnd_endsWithSpace. Qed.

Lemma app_empty (t : string) : EmptyString +:+ t = t.
Proof. reflexivity. Qed.

Lemma app_cons (c : ascii) (s t : string) : String c s +:+ t = String c (s +:+ t).
Proof. reflexivity. Qed.

Lemma length_app (s t : string) :
  String.length (s +:+ t) = (String.length s + String.length t)%nat.
Proof.
  induction s as [|c r IH]; [done|].
  rewrite app_cons. simpl. by rewrite IH.
Qed.

Lemma take_app (s t : string) : take (String.length s) (s +:+ t) = s.
Proof.
  induction s as [|c r IH]; [by destruct t|].
  rewrite app_cons. simpl. by rewrite IH.
Qed.

Lemma drop_app (s t : string) : drop (String.length s) (s +:+ t) = t.
Proof.
  induction s as [|c r IH]; [by destruct t|].
  rewrite app_cons. simpl. exact IH.
Qed.

Lemma take_all (s : string) (n : nat) :
  (String.length s ≤ n)%nat → take n s = s.
Proof.
  revert n; induction s as [|c r IH]; intros [|n] Hn; simpl in *; try done; try lia.
  rewrite IH; [done | lia].
Qed.

Lemma indexOf_lower (s : string) (c : ascii) : -1 ≤ indexOf s c.
Proof.
  induction s as [|a r IH]; simpl; [lia|].
  destruct (Ascii.eqb a c); [lia|].
  destruct (Z.eqb_spec (indexOf r c) (-1)); lia.
Qed.

Lemma indexOf_absent (s : string) (c : ascii) :
  indexOf s c = -1 ↔ contains c s = false.
Proof.
  induction s as [|a r IH]; simpl; [done|].
  destruct (Ascii.eqb a c); simpl; [done|].
  pose proof (indexOf_lower r c).
  destruct (Z.eqb_spec (indexOf r c) (-1)) as [E|E]; rewrite <- IH; split; (done || lia).
Qed.

(** [indexOf] finds the first occurrence. *)
Lemma indexOf_first (pre post : string) (c : ascii) :
  contains c pre = false →
  indexOf (pre +:+ String c post) c = Z.of_nat (String.length pre).
Proof.
  induction pre as [|a r IH].
  - intros _. rewrite app_empty. simpl. by rewrite Ascii.eqb_refl.
  - rewrite app_cons. simpl. intros [Ha Hr]%orb_false_elim. rewrite Ha, (IH Hr).
    destruct (Z.eqb_spec (Z.of_nat (String.length r)) (-1)); lia.
Qed.

(** A found index splits the string around the needle. *)
Lemma indexOf_found (s : string) (c : ascii) :
  indexOf s c ≠ -1 →
  ∃ pre post, s = pre +:+ String c post ∧ contains c pre = false.
Proof.
  induction s as [|a r IH]; simpl; [done|].
  destruct (Ascii.eqb_spec a c) as [->|Hne].
  - intros _. by exists EmptyString, r.
  - destruct (Z.eqb_spec (indexOf r c) (-1)) as [E|E]; [done|].
    intros _. destruct (IH E) as (pre & post & -> & Hpre).
    exists (String a pre), post. split; [done|]. simpl.
    rewrite Hpre, orb_false_r. by apply Ascii.eqb_neq.
Qed.

Lemma slice_before (pre post : string) :
  slice (pre +:+ post) 0 (Some (Z.of_nat (String.length pre))) = pre.
Proof.
  unfold slice, relativeIndex. rewrite length_app. simpl.
  destruct (Z.ltb_spec (Z.of_nat (String.length pre)) 0); [lia|].
  replace (Z.to_nat (0 `min` _)) with 0%nat by lia.
  replace (Z.to_nat _) with (String.length pre) by lia.
  apply take_app.
Qed.

Lemma slice_after (pre post : string) (c : ascii) :
  slice (pre +:+ String c post) (Z.of_nat (String.length pre) + 1) None = post.
Proof.
  unfold slice, relativeIndex. rewrite length_app. simpl String.length.
  destruct (Z.ltb_spec (Z.of_nat (String.length pre) + 1) 0); [lia|].
  replace (Z.to_nat (Z.min _ _)) with (String.length (pre +:+ String c EmptyString)).
  2:{ rewrite length_app. simpl. lia. }
  replace (pre +:+ String c post) with ((pre +:+ String c EmptyString) +:+ post).
  2:{ clear. induction pre as [|a r IH]; [done|]. rewrite !app_cons. by f_equal. }
  rewrite drop_app. apply take_all. lia.
Qed.

End JsStringFacts.

(** ** Model mapping *)

Module ModelMappingFacts.
Import JsString JsStringFacts ModelMapping.

Lemma isEmpty_app_cons (pre post : string) (c : ascii) :
  isEmpty (pre +:+ String c post) = false.
Proof. by destruct pre. Qed.

(** An entry without a colon leaves the map as it is. *)
Lemma parsePair_no_colon (m : gmap string string) (logs : list LogEntry)
    (pair : string) :
  contains ":"%char (trim pair) = false → fst (parsePair (m, logs) pair) = m.
Proof.
  intros Hc%indexOf_absent. unfold parsePair. cbv zeta.
  rewrite Hc. simpl. by destruct (isEmpty (trim pair)).
Qed.

(** An entry with a colon is cut at the first one. *)
Lemma parsePair_colon (m : gmap string string) (logs : list LogEntry)
    (pair pre post : string) :
  trim pair = pre +:+ String ":"%char post →
  contains ":"%char pre = false →
  fst (parsePair (m, logs) pair)
  = if isEmpty (trim pre) || isEmpty (trim post) then m
    else <[trim pre := trim post]> m.
Proof.
  intros Ht Hpre. unfold parsePair. cbv zeta.
  rewrite Ht, isEmpty_app_cons, (indexOf_first _ _ _ Hpre).
  destruct (Z.eqb_spec (Z.of_nat (String.length pre)) (-1)) as [E|_]; [lia|].
  rewrite slice_before, slice_after.
  by destruct (isEmpty (trim pre) || isEmpty (trim post)).
Qed.

Lemma parsePair_entries (Q : string → string → Prop) (m : gmap string string)
    (logs : list LogEntry) (pair : string) :
  map_Forall Q m →
  (∀ pre post,
      trim pair = pre +:+ String ":"%char post → contains ":"%char pre = false →
      isEmpty (trim pre) = false → isEmpty (trim post) = false →
      Q (trim pre) (trim post)) →
  map_Forall Q (fst (parsePair (m, logs) pair)).
Proof.
  intros Hm HQ.
  destruct (contains ":"%char (trim pair)) eqn:Hc.
  - assert (indexOf (trim pair) ":"%char ≠ -1) as Hi.
    { intros E%indexOf_absent. congruence. }
    destruct (indexOf_found _ _ Hi) as (pre & post & Ht & Hpre).
    rewrite (parsePair_colon _ _ _ _ _ Ht Hpre).
    destruct (isEmpty (trim pre)) eqn:E1; [done|].
    destruct (isEmpty (trim post)) eqn:E2; [done|]. simpl.
    apply map_Forall_insert_2; [|done]. by apply HQ.
  - by rewrite parsePair_no_colon.
Qed.

Lemma fold_parsePair_entries (Q : string → string → Prop) (pairs : list string) :
  (∀ pair pre post,
      pair ∈ pairs →
      trim pair = pre +:+ String ":"%char post → contains ":"%char pre = false →
      isEmpty (trim pre) = false → isEmpty (trim post) = false →
      Q (trim pre) (trim post)) →
  ∀ acc, map_Forall Q (fst acc) → map_Forall Q (fst (fold_left parsePair pairs acc)).
Proof.
  induction pairs as [|pair pairs IH]; intros HQ [m logs] Hm; simpl; [done|].
  apply IH.
  - intros p pre post Hp. apply HQ. by right.
  - apply parsePair_entries; [done|]. intros pre post. apply HQ. by left.
Qed.

Lemma getModelMappings_spec (envValue : option string) (σ : Store) :
  consistent σ →
  let r := getModelMappings envValue σ in
  heap r.1.2 !! r.1.1 = Some (parseModelMappings envValue)
  ∧ cachedMappings r.1.2 = Some r.1.1
  ∧ cachedEnvValue r.1.2 = envValue
  ∧ consistent r.1.2.
Proof.
  intros Hσ. unfold getModelMappings.
  assert (∀ h : list (gmap string string),
            (h ++ [parseModelMappings envValue]) !! length h
            = Some (parseModelMappings envValue)) as Hnew.
  { intros h. rewrite lookup_app_r by lia. by rewrite Nat.sub_diag. }
  destruct (cachedMappings σ) as [ref|] eqn:Hc.
  - destruct (decide (cachedEnvValue σ = envValue)) as [<-|Hne]; simpl.
    + repeat split; auto.
    + repeat split; [apply Hnew|]. intros ref' [= <-]. apply Hnew.
  - simpl. repeat split; [apply Hnew|]. intros ref' [= <-]. apply Hnew.
Qed.

Lemma consistent_after (calls : list Call) : consistent (after calls).
Proof.
  unfold after.
  assert (consistent initialStore) as H0 by (intros ref; discriminate).
  revert H0. generalize initialStore.
  induction calls as [|c calls IH]; intros σ Hσ; simpl; [done|].
  apply IH. destruct c as [envValue|]; simpl.
  - apply (getModelMappings_spec envValue σ Hσ).
  - intros ref; discriminate.
Qed.

(** C8. Every key and every value of the map [parseModelMappings] returns,
    for any input including [undefined], is a non-empty string with no
    white space at either end, and comes from a comma-separated entry cut
    at its first colon (so the target may contain colons); an entry with no
    colon, with an empty source or with an empty target leaves the map as
    it was. *)
Theorem parseModelMappings_entries (envValue : option string) :
  map_Forall
    (λ source target,
       clean source ∧ clean target ∧
       ∃ v pair pre post,
         envValue = Some v ∧ pair ∈ split ","%char v ∧
         trim pair = pre +:+ String ":"%char post ∧
         contains ":"%char pre = false ∧
         source = trim pre ∧ target = trim post)
    (parseModelMappings envValue)
  ∧ (∀ m logs pair,
       contains ":"%char (trim pair) = false →
       fst (parsePair (m, logs) pair) = m)
  ∧ (∀ m logs pair pre post,
       trim pair = pre +:+ String ":"%char post →
       contains ":"%char pre = false →
       fst (parsePair (m, logs) pair)
       = if isEmpty (trim pre) || isEmpty (trim post) then m
         else <[trim pre := trim post]> m).
Proof.
  split; [|split; [apply parsePair_no_colon | apply parsePair_colon]].
  unfold parseModelMappings, parseModelMappingsLogged.
  destruct envValue as [v|]; [|apply map_Forall_empty].
  destruct (isEmpty v || isEmpty (trim v)); [apply map_Forall_empty|].
  apply fold_parsePair_entries; [|apply map_Forall_empty].
  intros pair pre post Hin Ht Hpre E1 E2.
  repeat split; auto using trim_startsWithSpace, trim_endsWithSpace.
  by exists v, pair, pre, post.
Qed.

(** The theorem at the input of the test with colons in the target. *)
Lemma parseModelMappings_entries_witness :
  fst (parsePair (∅, []) "source:target:with:colons")
  = {[ "source" := "target:with:colons" ]}.
Proof.
  destruct (parseModelMappings_entries None) as (_ & _ & Hcut).
  rewrite (Hcut ∅ [] "source:target:with:colons" "source" "target:with:colons");
    [reflexivity | reflexivity | reflexivity].
Defined.

(** C9. In any state the module can reach, a call of [getModelMappings]
    returns a map equal to [parseModelMappings] of the current environment
    value; a second call under the same value returns the same object and
    changes nothing (no map is allocated, nothing is logged); a call under
    another value returns a newly allocated map parsed from that value. *)
Theorem getModelMappings_cached (calls : list Call) (envValue envValue' : option string) :
  let first := getModelMappings envValue (after calls) in
  let σ1 := first.1.2 in
  let second := getModelMappings envValue σ1 in
  let third := getModelMappings envValue' σ1 in
  heap σ1 !! first.1.1 = Some (parseModelMappings envValue)
  ∧ second = (first.1.1, σ1, [])
  ∧ third.1.1 = (if decide (envValue' = envValue) then first.1.1
                 else length (heap σ1))
  ∧ (first.1.1 < length (heap σ1))%nat
  ∧ heap third.1.2 !! third.1.1 = Some (parseModelMappings envValue').
Proof.
  intros first σ1 second third.
  destruct (getModelMappings_spec envValue (after calls) (consistent_after calls))
    as (Hheap & Hc & He & Hσ1).
  fold first in Hheap, Hc, He, Hσ1. fold σ1 in Hheap, Hc, He, Hσ1.
  split; [exact Hheap|].
  split.
  { subst second. unfold getModelMappings. rewrite Hc, He.
    by rewrite decide_True. }
  split.
  { subst third. unfold getModelMappings. rewrite Hc, He.
    destruct (decide (envValue = envValue')) as [<-|Hne].
    - by rewrite decide_True.
    - by rewrite (decide_False (P := envValue' = envValue)). }
  split; [by apply lookup_lt_Some in Hheap|].
  apply (getModelMappings_spec envValue' σ1 Hσ1).
Qed.

End ModelMappingFacts.

(** ** Tracing *)

Module TraceFacts.
Import JsString Trace.

Section TraceFacts.
Context {Value : Type}.
Variable st : State.
Variable host : Host Value.

Lemma tryCatch_returns {A : Type} (body : Outcome A) (a : A) :
  ∃ r, tryCatch body (λ _, Returned a) = Returned r.
Proof. destruct body; simpl; eauto. Qed.

Lemma tryCatch_unit (body : Outcome unit) :
  tryCatch body (λ _, Returned tt) = Returned tt.
Proof. by destruct body as [[]|]. Qed.

Lemma ensureTraceFolder_returns : ensureTraceFolder st host = Returned tt.
Proof. unfold ensureTraceFolder. destruct (tracingOff st); auto using tryCatch_unit. Qed.

Lemma traceResponse_returns (response : Value) (timestamp : option string) :
  traceResponse st host response timestamp = Returned tt.
Proof.
  unfold traceResponse.
  destruct (tracingOff st || falsy timestamp); auto using tryCatch_unit.
Qed.

Lemma finish_returns (tracer : StreamTracer Value) :
  finish st host tracer = Returned tt.
Proof.
  unfold finish.
  destruct (tracingOff st || falsy (timestamp tracer)); auto using tryCatch_unit.
Qed.

(** The request trace settles with the timestamp when the file was
    written, and with [null] in every other case. *)
Lemma traceRequest_returns (request : Value) :
  traceRequest st host request
  = Returned
      (if tracingOff st then None
       else if returns
                 (andThen (JSON_stringify host (Payload request)) (λ content,
                  writeFile host
                    (join host (folder st) (getTimestamp host +:+ ".req")) content))
            then Some (getTimestamp host)
            else None).
Proof.
  unfold traceRequest. destruct (tracingOff st); [done|].
  destruct (JSON_stringify host (Payload request)) as [content|e]; simpl; [|done].
  by destruct (writeFile host _ content).
Qed.

End TraceFacts.
End TraceFacts.

(** ** The completion handler *)

Section HandlerFacts.
Import JsString AnthropicTypes Handler.
Context `{Imports}.
Variable translate :
  ChatCompletionChunk → AnthropicStreamState →
  list AnthropicEvent * AnthropicStreamState.
Variable env : Env.

#[local] Arguments bind : simpl never.

Lemma bind_effects {A B : Type} (m : M A) (k : A → M B) :
  fst (bind m k)
  = fst m ++ match snd m with Returned a => fst (k a) | Raised _ => [] end.
Proof.
  unfold bind. destruct m as [l [a|e]]; simpl; [|by rewrite app_nil_r].
  by destruct (k a).
Qed.

Lemma bind_outcome {A B : Type} (m : M A) (k : A → M B) :
  snd (bind m k)
  = match snd m with Returned a => snd (k a) | Raised e => Raised e end.
Proof.
  unfold bind. destruct m as [l [a|e]]; simpl; [|done]. by destruct (k a).
Qed.

Lemma writeEvents_eq (chunk : ChatCompletionChunk)
    (events : list AnthropicEvent) (tracer : Trace.StreamTracer TraceValue) :
  writeEvents env chunk events tracer
  = (handedOff events, Returned (fed env chunk events tracer)).
Proof.
  revert tracer; induction events as [|e events IH]; intros tracer; [done|].
  simpl. unfold bind. simpl. rewrite IH. reflexivity.
Qed.

(** One turn of the loop, by cases on the raw event. *)
Lemma forAwait_cons (rawEvent : RawEvent) (later : list RawEvent)
    (s : AnthropicStreamState) (tracer : Trace.StreamTracer TraceValue) :
  forAwait translate env (rawEvent :: later) s tracer
  = if isSentinel rawEvent then ([EventReceived rawEvent], Returned (s, tracer))
    else if falsy (data rawEvent)
    then (EventReceived rawEvent :: fst (forAwait translate env later s tracer),
          snd (forAwait translate env later s tracer))
    else match JSON_parse (default EmptyString (data rawEvent)) with
         | Raised e => ([EventReceived rawEvent], Raised e)
         | Returned chunk =>
             let events := fst (translate chunk s) in
             let next := forAwait translate env later (snd (translate chunk s))
                           (fed env chunk events tracer) in
             (EventReceived rawEvent :: ChunkTranslated chunk events ::
                handedOff events ++ fst next,
              snd next)
         end.
Proof.
  simpl. unfold isSentinel.
  destruct (bool_decide (data rawEvent = Some "[DONE]")); [done|].
  destruct (falsy (data rawEvent)).
  { unfold bind. simpl. by destruct (forAwait translate env later s tracer). }
  destruct (JSON_parse (default EmptyString (data rawEvent))) as [chunk|e]; [|done].
  destruct (translate chunk s) as [events s'] eqn:Ht. simpl.
  unfold bind. simpl. rewrite Ht, writeEvents_eq.
  by destruct (forAwait translate env later s' (fed env chunk events tracer)).
Qed.

Lemma written_app (l1 l2 : list Effect) :
  written (l1 ++ l2) = written l1 ++ written l2.
Proof. apply omap_app. Qed.

Lemma produced_app (l1 l2 : list Effect) :
  produced (l1 ++ l2) = produced l1 ++ produced l2.
Proof. apply flat_map_app. Qed.

Lemma written_handedOff (events : list AnthropicEvent) :
  written (handedOff events) = map frame events.
Proof. induction events as [|e events IH]; simpl; [done|]. by f_equal. Qed.

Lemma produced_handedOff (events : list AnthropicEvent) :
  produced (handedOff events) = [].
Proof. by induction events. Qed.

Lemma written_cons (e : Effect) (l : list Effect) :
  written (e :: l)
  = match e with SSEWritten m => m :: written l | _ => written l end.
Proof. by destruct e. Qed.

Lemma produced_cons (e : Effect) (l : list Effect) :
  produced (e :: l)
  = match e with ChunkTranslated _ events => events ++ produced l | _ => produced l end.
Proof. by destruct e. Qed.

Lemma forAwait_written (response : list RawEvent) (s : AnthropicStreamState)
    (tracer : Trace.StreamTracer TraceValue) :
  written (fst (forAwait translate env response s tracer))
  = map frame (produced (fst (forAwait translate env response s tracer))).
Proof.
  revert s tracer; induction response as [|r later IH]; intros s tracer; [done|].
  rewrite forAwait_cons.
  destruct (isSentinel r); [done|].
  destruct (falsy (data r)); [apply IH|].
  destruct (JSON_parse (default EmptyString (data r))) as [chunk|e]; [|done].
  cbv zeta. cbn [fst]. rewrite !written_cons, !produced_cons.
  rewrite written_app, produced_app, written_handedOff, produced_handedOff, IH.
  simpl. by rewrite map_app.
Qed.

Lemma forAwait_produced (response : list RawEvent) (s : AnthropicStreamState)
    (tracer : Trace.StreamTracer TraceValue) :
  produced (fst (forAwait translate env response s tracer))
  = fst (translateAll translate (delivered response) s).
Proof.
  revert s tracer; induction response as [|r later IH]; intros s tracer; [done|].
  rewrite forAwait_cons. simpl delivered.
  destruct (isSentinel r); [done|].
  destruct (falsy (data r)); [apply IH|].
  destruct (JSON_parse (default EmptyString (data r))) as [chunk|e]; [|done].
  cbv zeta. cbn [fst]. rewrite !produced_cons.
  rewrite produced_app, produced_handedOff, IH. simpl.
  destruct (translate chunk s) as [events s']. simpl.
  by destruct (translateAll translate (delivered later) s').
Qed.

(** *** Order of the effects of the streaming loop *)

Lemma app_split_late {A : Type} (l1 l2 pre post : list A) (x : A) :
  x ∉ l1 → l1 ++ l2 = pre ++ x :: post → ∃ pre', l2 = pre' ++ x :: post.
Proof.
  revert pre; induction l1 as [|a l1 IH]; intros pre Hx E; simpl in E; [eauto|].
  destruct pre as [|b pre]; simpl in E; injection E as E1 E2.
  - exfalso. apply Hx. rewrite E1. by left.
  - eapply IH; [|exact E2]. intros Hin. apply Hx. by right.
Qed.

Lemma app_split_early {A : Type} (l1 l2 pre post : list A) (x : A) :
  x ∉ l2 → l1 ++ l2 = pre ++ x :: post →
  ∃ post', l1 = pre ++ x :: post' ∧ post = post' ++ l2.
Proof.
  revert pre; induction l1 as [|a l1 IH]; intros pre Hx E; simpl in E.
  - exfalso. apply Hx. rewrite E. apply elem_of_app. right. by left.
  - destruct pre as [|b pre]; simpl in E; injection E as E1 E2.
    + exists l1. by rewrite E1, E2.
    + destruct (IH pre Hx E2) as (post' & -> & ->). exists post'. by rewrite E1.
Qed.

Lemma handedOff_only_writes (events : list AnthropicEvent) (e : Effect) :
  e ∈ handedOff events → ∃ m, e = SSEWritten m.
Proof.
  induction events as [|ev events IH]; simpl; [by intros ?%elem_of_nil|].
  intros [->|Hin]%elem_of_cons; eauto.
Qed.

Lemma forAwait_starts (response : list RawEvent) (s : AnthropicStreamState)
    (tracer : Trace.StreamTracer TraceValue) :
  (fst (forAwait translate env response s tracer) = []
   ∧ returns (snd (forAwait translate env response s tracer)) = true)
  ∨ ∃ rawEvent l,
      fst (forAwait translate env response s tracer) = EventReceived rawEvent :: l.
Proof.
  destruct response as [|r later]; [by left|]. right.
  rewrite forAwait_cons.
  destruct (isSentinel r); [by eexists _, _|].
  destruct (falsy (data r)); [by eexists _, _|].
  destruct (JSON_parse _); by eexists _, _.
Qed.

Lemma forAwait_handoff (response : list RawEvent) :
  ∀ (s : AnthropicStreamState) (tracer : Trace.StreamTracer TraceValue)
    (pre post : list Effect) (chunk : ChatCompletionChunk)
    (events : list AnthropicEvent),
    fst (forAwait translate env response s tracer)
    = pre ++ ChunkTranslated chunk events :: post →
    ∃ rest,
      post = handedOff events ++ rest
      ∧ ((rest = [] ∧ returns (snd (forAwait translate env response s tracer)) = true)
         ∨ ∃ next rest', rest = EventReceived next :: rest').
Proof.
  induction response as [|r later IH]; intros s tracer pre post chunk events.
  { simpl. by destruct pre. }
  rewrite forAwait_cons.
  destruct (isSentinel r).
  { simpl. intros E. destruct pre as [|? [|? ?]]; simplify_eq/=. }
  destruct (falsy (data r)).
  { simpl. intros E. destruct pre as [|? pre]; simplify_eq/=. by eapply IH. }
  destruct (JSON_parse (default EmptyString (data r))) as [c|e].
  2:{ simpl. intros E. destruct pre as [|? [|? ?]]; simplify_eq/=. }
  cbv zeta. cbn [fst snd]. intros E.
  destruct pre as [|? pre]; [discriminate E|]. simpl in E. injection E as _ E.
  destruct pre as [|? pre]; simpl in E.
  - injection E as <- <- <-. eexists. split; [done|]. apply forAwait_starts.
  - injection E as _ E.
    apply app_split_late in E as [pre' E]; [by eapply IH|].
    intros (m & ?)%handedOff_only_writes. done.
Qed.

Lemma forAwait_sentinel (response : list RawEvent) :
  ∀ (s : AnthropicStreamState) (tracer : Trace.StreamTracer TraceValue)
    (pre post : list Effect) (rawEvent : RawEvent),
    fst (forAwait translate env response s tracer)
    = pre ++ EventReceived rawEvent :: post →
    isSentinel rawEvent = true →
    post = [] ∧ returns (snd (forAwait translate env response s tracer)) = true.
Proof.
  induction response as [|r later IH]; intros s tracer pre post rawEvent.
  { simpl. by destruct pre. }
  rewrite forAwait_cons.
  destruct (isSentinel r) eqn:Hr.
  { simpl. intros E. by destruct pre as [|? [|? ?]]; simplify_eq/=. }
  destruct (falsy (data r)).
  { simpl. intros E Hs. destruct pre as [|? pre]; simplify_eq/=; [congruence|].
    by eapply IH. }
  destruct (JSON_parse (default EmptyString (data r))) as [c|e].
  2:{ simpl. intros E Hs. destruct pre as [|? [|? ?]]; simplify_eq/=. congruence. }
  cbv zeta. cbn [fst snd]. intros E Hs.
  destruct pre as [|? pre]; simpl in E; [injection E as -> _; congruence|].
  injection E as _ E.
  destruct pre as [|? pre]; simpl in E; [discriminate E|]. injection E as _ E.
  apply app_split_late in E as [pre' E]; [by eapply IH|].
  intros (m & ?)%handedOff_only_writes. done.
Qed.

Lemma forAwait_no_flush (response : list RawEvent) :
  ∀ (s : AnthropicStreamState) (tracer : Trace.StreamTracer TraceValue),
    Forall (λ e, isFlush e = false) (fst (forAwait translate env response s tracer)).
Proof.
  induction response as [|r later IH]; intros s tracer; [constructor|].
  rewrite forAwait_cons.
  destruct (isSentinel r); [by repeat constructor|].
  destruct (falsy (data r)); [by constructor|].
  destruct (JSON_parse _) as [c|e]; [|by repeat constructor].
  cbv zeta. cbn [fst]. repeat (constructor; [done|]).
  apply Forall_app. split; [|apply IH].
  apply Forall_forall. by intros e (m & ->)%handedOff_only_writes.
Qed.

Lemma forAwait_returns (response : list RawEvent) :
  ∀ (s : AnthropicStreamState) (tracer : Trace.StreamTracer TraceValue),
    wellFormed response = true →
    returns (snd (forAwait translate env response s tracer)) = true.
Proof.
  induction response as [|r later IH]; intros s tracer; [done|].
  simpl wellFormed. intros [Hr Hl]%andb_true_iff.
  rewrite forAwait_cons.
  destruct (isSentinel r); [done|].
  destruct (falsy (data r)); [by apply IH|].
  simpl in Hr.
  destruct (JSON_parse _) as [c|e]; [|done].
  by apply IH.
Qed.

(** The callback: the loop, then the flush if the loop did not throw. *)
Lemma streamCallback_eq (response : list RawEvent) (traceTimestamp : option string) :
  streamCallback translate env response traceTimestamp
  = let loop := forAwait translate env response initialStreamState
                  (Trace.newStreamTracer traceTimestamp) in
    match snd loop with
    | Returned final => (fst loop ++ [TracerFinished (snd final)], Returned tt)
    | Raised e => (fst loop, Raised e)
    end.
Proof.
  unfold streamCallback. cbv zeta. unfold bind.
  destruct (forAwait _ _ _ _ _) as [l [final|e]]; simpl; [|done].
  by rewrite TraceFacts.finish_returns.
Qed.

Lemma streamCallback_written (response : list RawEvent)
    (traceTimestamp : option string) :
  written (fst (streamCallback translate env response traceTimestamp))
  = map frame (fst (translateAll translate (delivered response) initialStreamState)).
Proof.
  rewrite streamCallback_eq. cbv zeta.
  pose proof (forAwait_written response initialStreamState
                (Trace.newStreamTracer traceTimestamp)) as Hw.
  pose proof (forAwait_produced response initialStreamState
                (Trace.newStreamTracer traceTimestamp)) as Hp.
  destruct (forAwait _ _ _ _ _) as [l [final|e]]; simpl in *; [|congruence].
  rewrite written_app. simpl. rewrite app_nil_r. congruence.
Qed.

Lemma streamCallback_produced (response : list RawEvent)
    (traceTimestamp : option string) :
  produced (fst (streamCallback translate env response traceTimestamp))
  = fst (translateAll translate (delivered response) initialStreamState).
Proof.
  rewrite streamCallback_eq. cbv zeta.
  pose proof (forAwait_produced response initialStreamState
                (Trace.newStreamTracer traceTimestamp)) as Hp.
  destruct (forAwait _ _ _ _ _) as [l [final|e]]; simpl in *; [|done].
  rewrite produced_app. simpl. by rewrite app_nil_r.
Qed.

(** C2. The stream state a streaming response starts from has no message
    started, block index 0, no block open and no tool call recorded; it is
    the state the translator receives with the first chunk, and the one
    state threaded through the chunks after it. *)
Theorem stream_state_starts_fresh (response : list RawEvent)
    (traceTimestamp : option string) :
  messageStartSent initialStreamState = false
  ∧ contentBlockIndex initialStreamState = 0
  ∧ contentBlockOpen initialStreamState = false
  ∧ toolCalls initialStreamState = ∅
  ∧ produced (fst (streamCallback translate env response traceTimestamp))
    = fst (translateAll translate (delivered response)
             {| messageStartSent := false;
                contentBlockIndex := 0;
                contentBlockOpen := false;
                toolCalls := ∅ |}).
Proof. repeat split. apply streamCallback_produced. Qed.

(** C4. In the streaming path, the messages written to the transport are
    exactly the events the translator returned, one message per event, in
    the order the translator returned them: the [event] field of a message
    is the type tag of its event and the [data] field is its JSON
    serialization. The translator is called once per delivered chunk, in
    order, on the one stream state. *)
Theorem stream_frames_follow_events (response : list RawEvent)
    (traceTimestamp : option string) :
  let log := fst (streamCallback translate env response traceTimestamp) in
  written log
  = map (λ event, {| SSE.event := type event; SSE.data := JSON_stringify event |})
        (produced log)
  ∧ produced log = fst (translateAll translate (delivered response) initialStreamState).
Proof.
  cbv zeta. rewrite streamCallback_written, streamCallback_produced. done.
Qed.

(** The loop returns exactly on the responses it can read through. *)
Lemma forAwait_returns_readable (response : list RawEvent) :
  ∀ (s : AnthropicStreamState) (tracer : Trace.StreamTracer TraceValue),
    returns (snd (forAwait translate env response s tracer))
    = Readings.readable response.
Proof.
  induction response as [|r later IH]; intros s tracer; [done|].
  rewrite forAwait_cons. simpl Readings.readable.
  destruct (isSentinel r); [done|].
  destruct (falsy (data r)); [by apply IH|].
  destruct (JSON_parse (default EmptyString (data r))) as [c|e]; [|done].
  by apply IH.
Qed.

(** C6. In the streaming path, the translation of a chunk is followed at
    once by the writes of all its events, and only then by the next raw
    event or by the flush of the tracer; after a raw event whose data is
    the sentinel nothing is read, translated or written, only the flush
    follows. The tracer is flushed exactly once, as the last effect, when
    every raw event with data before the sentinel carries a text
    [JSON.parse] accepts; when one of them does not, the callback throws
    there and the tracer is never flushed. *)
Theorem stream_handoff_then_flush (response : list RawEvent)
    (traceTimestamp : option string) :
  let log := fst (streamCallback translate env response traceTimestamp) in
  (∀ pre post chunk events,
     log = pre ++ ChunkTranslated chunk events :: post →
     ∃ rest,
       post = handedOff events ++ rest
       ∧ ((∃ next rest', rest = EventReceived next :: rest')
          ∨ ∃ tracer, rest = [TracerFinished tracer]))
  ∧ (∀ pre post rawEvent,
       log = pre ++ EventReceived rawEvent :: post →
       data rawEvent = Some "[DONE]" →
       ∃ tracer, post = [TracerFinished tracer])
  ∧ (Readings.readable response = true →
     ∃ body tracer,
       log = body ++ [TracerFinished tracer]
       ∧ Forall (λ e, isFlush e = false) body)
  ∧ (Readings.readable response = false →
     Forall (λ e, isFlush e = false) log).
Proof.
  cbv zeta. rewrite streamCallback_eq. cbv zeta.
  set (loop := forAwait translate env response initialStreamState
                 (Trace.newStreamTracer traceTimestamp)).
  pose proof (forAwait_no_flush response initialStreamState
                (Trace.newStreamTracer traceTimestamp)) as Hnf.
  pose proof (forAwait_returns_readable response initialStreamState
                (Trace.newStreamTracer traceTimestamp)) as Hread.
  fold loop in Hnf, Hread.
  split; [|split; [|split]].
  - intros pre post chunk events E.
    destruct (snd loop) as [final|e] eqn:Hloop; simpl in E.
    + apply app_split_early in E as (post' & E & ->).
      2:{ by intros [?|?%elem_of_nil]%elem_of_cons. }
      apply forAwait_handoff in E as (rest & -> & Hrest).
      exists (rest ++ [TracerFinished (snd final)]).
      rewrite app_assoc. split; [done|].
      destruct Hrest as [[-> _]|(next & rest' & ->)]; [right|left]; by eauto.
    + apply forAwait_handoff in E as (rest & -> & Hrest).
      exists rest. split; [done|].
      destruct Hrest as [[_ Hr]|Hnext]; [|by left].
      fold loop in Hr. by rewrite Hloop in Hr.
  - intros pre post rawEvent E Hdone.
    assert (isSentinel rawEvent = true) as Hs.
    { unfold isSentinel. by apply bool_decide_eq_true. }
    destruct (snd loop) as [final|e] eqn:Hloop; simpl in E.
    + apply app_split_early in E as (post' & E & ->).
      2:{ by intros [?|?%elem_of_nil]%elem_of_cons. }
      apply forAwait_sentinel in E as [-> _]; [|done]. by eexists.
    + apply forAwait_sentinel in E as [_ Hr]; [|done].
      fold loop in Hr. by rewrite Hloop in Hr.
  - intros Hr. rewrite Hr in Hread.
    destruct (snd loop) as [final|e]; [|done].
    simpl. by eexists _, _.
  - intros Hr. rewrite Hr in Hread.
    destruct (snd loop) as [final|e]; [done|]. exact Hnf.
Qed.

(** *** The handler around the loop *)

Lemma complete_eq (payload : AnthropicMessagesPayload PayloadRest) :
  complete translate env payload
  = match (if manualApprove (st env) then awaitApproval env else Returned tt) with
    | Raised e => (RequestTraced payload :: gate env, Raised e)
    | Returned _ =>
        let request := translateToOpenAI payload in
        match createChatCompletions env request with
        | Raised e =>
            (RequestTraced payload :: gate env ++ [BackendCalled request], Raised e)
        | Returned response =>
            if isNonStreaming response then
              (RequestTraced payload :: gate env ++
                 [BackendCalled request;
                  ResponseTraced response (translateToAnthropic response)],
               Returned (JsonBody (translateToAnthropic response)))
            else
              let callback :=
                streamCallback translate env (asyncIterator response)
                  (traceTimestamp env payload) in
              (RequestTraced payload :: gate env ++
                 BackendCalled request :: fst callback,
               Returned (EventStream (written (fst callback))))
        end
    end.
Proof.
  unfold complete, traceTimestamp, gate.
  rewrite TraceFacts.traceRequest_returns.
  set (ts := if Trace.tracingOff (st env) then None else _).
  unfold bind at 1. simpl. unfold bind at 1. simpl.
  destruct (manualApprove (st env)).
  - unfold bind at 2. simpl. destruct (awaitApproval env) as [[]|e]; [|done].
    unfold bind at 1. simpl. unfold bind at 1. simpl.
    unfold bind at 1. simpl.
    destruct (createChatCompletions env _) as [response|e]; [|done].
    destruct (isNonStreaming response); [|done].
    unfold bind. simpl. by rewrite TraceFacts.traceResponse_returns.
  - unfold bind at 1. simpl. unfold bind at 1. simpl.
    unfold bind at 1. simpl.
    destruct (createChatCompletions env _) as [response|e]; [|done].
    destruct (isNonStreaming response); [|done].
    unfold bind. simpl. by rewrite TraceFacts.traceResponse_returns.
Qed.

Lemma forAwait_responsePhase (response : list RawEvent) :
  ∀ (s : AnthropicStreamState) (tracer : Trace.StreamTracer TraceValue),
    Forall (λ e, responsePhase e = true)
           (fst (forAwait translate env response s tracer)).
Proof.
  induction response as [|r later IH]; intros s tracer; [constructor|].
  rewrite forAwait_cons.
  destruct (isSentinel r); [by repeat constructor|].
  destruct (falsy (data r)); [by constructor|].
  destruct (JSON_parse _) as [c|e]; [|by repeat constructor].
  cbv zeta. cbn [fst]. repeat (constructor; [done|]).
  apply Forall_app. split; [|apply IH].
  apply Forall_forall. by intros e (m & ->)%handedOff_only_writes.
Qed.

Lemma streamCallback_responsePhase (response : list RawEvent)
    (timestamp : option string) :
  Forall (λ e, responsePhase e = true)
         (fst (streamCallback translate env response timestamp)).
Proof.
  rewrite streamCallback_eq. cbv zeta.
  pose proof (forAwait_responsePhase response initialStreamState
                (Trace.newStreamTracer timestamp)) as Hl.
  destruct (snd (forAwait _ _ _ _ _)); simpl; [|done].
  apply Forall_app. split; [done|]. by repeat constructor.
Qed.

(** The effects of [complete], as far as the backend call and beyond. *)
Lemma complete_effects (payload : AnthropicMessagesPayload PayloadRest) :
  ∃ tail,
    fst (complete translate env payload)
    = RequestTraced payload :: gate env ++
      (if approved env then BackendCalled (translateToOpenAI payload) :: tail else [])
    ∧ Forall (λ e, responsePhase e = true) tail.
Proof.
  rewrite complete_eq. unfold approved.
  destruct (manualApprove (st env)); simpl.
  - destruct (awaitApproval env) as [[]|e]; simpl.
    2:{ exists []. by rewrite app_nil_r. }
    destruct (createChatCompletions env _) as [response|e]; simpl.
    2:{ by exists []. }
    destruct (isNonStreaming response); simpl.
    + eexists. split; [done|]. by repeat constructor.
    + eexists. split; [done|]. apply streamCallback_responsePhase.
  - destruct (createChatCompletions env _) as [response|e]; simpl.
    2:{ by exists []. }
    destruct (isNonStreaming response); simpl.
    + eexists. split; [done|]. by repeat constructor.
    + eexists. split; [done|]. apply streamCallback_responsePhase.
Qed.

Lemma handleCompletion_eq (σ : ModelMapping.Store) :
  snd (handleCompletion translate env σ)
  = match checkRateLimit env with
    | Raised e => ([RateLimitChecked], Raised e)
    | Returned _ =>
        match requestJson env with
        | Raised e => ([RateLimitChecked; RequestRead], Raised e)
        | Returned payload =>
            let run := complete translate env
                         (applyMapping env (currentMappings env σ) payload) in
            ([RateLimitChecked; RequestRead; MappingsLookedUp] ++ fst run, snd run)
        end
    end.
Proof.
  unfold handleCompletion, currentMappings.
  destruct (checkRateLimit env) as [[]|e]; [|done].
  destruct (requestJson env) as [payload|e]; [|done].
  destruct (ModelMapping.getModelMappings _ σ) as [[ref σ'] logs]. simpl.
  unfold bind. simpl. by destruct (complete _ _ _).
Qed.

(** C5. A request that passes the rate limit and whose body is read goes
    through, in this order: the model-mapping lookup, the trace of the
    request, the approval gate when manual approval is on, and then the
    backend call. The backend is called only when the gate is off or the
    approval resolved, never before it, and with the translation of the
    payload as it stands after model mapping; whatever follows belongs to
    the response. A request stopped earlier never reaches the backend. *)
Theorem orchestration_order (σ : ModelMapping.Store) :
  let log := fst (snd (handleCompletion translate env σ)) in
  match checkRateLimit env, requestJson env with
  | Returned _, Returned payload =>
      let mapped := applyMapping env (currentMappings env σ) payload in
      ∃ tail,
        log = [RateLimitChecked; RequestRead; MappingsLookedUp; RequestTraced mapped]
              ++ (if manualApprove (st env) then [ApprovalAwaited] else [])
              ++ (if negb (manualApprove (st env)) || returns (awaitApproval env)
                  then BackendCalled (translateToOpenAI mapped) :: tail
                  else [])
        ∧ Forall (λ e, responsePhase e = true) tail
  | _, _ => Forall (λ e, e = RateLimitChecked ∨ e = RequestRead) log
  end.
Proof.
  cbv zeta. rewrite handleCompletion_eq.
  destruct (checkRateLimit env) as [[]|e]; [|by repeat constructor; auto].
  destruct (requestJson env) as [payload|e]; [|by repeat constructor; auto].
  destruct (complete_effects (applyMapping env (currentMappings env σ) payload))
    as (tail & E & Htail).
  exists tail. split; [|done]. cbv zeta. cbn [fst]. rewrite E. done.
Qed.

(** C10. The result of the backend call takes the non-streaming path
    exactly when it has an own property named "choices": it is then
    translated and returned as one JSON body, after one response trace.
    Every other result is driven through the streaming loop, and the
    response is the stream of the messages the loop writes. *)
Theorem response_routing (payload : AnthropicMessagesPayload PayloadRest)
    (response : BackendResponse JsValue) :
  approved env = true →
  createChatCompletions env (translateToOpenAI payload) = Returned response →
  let run := complete translate env payload in
  let callback :=
    streamCallback translate env (asyncIterator response) (traceTimestamp env payload) in
  let before :=
    RequestTraced payload :: gate env ++ [BackendCalled (translateToOpenAI payload)] in
  (isNonStreaming response = true ↔ is_Some (ownProperties response !! "choices"))
  ∧ (is_Some (ownProperties response !! "choices") →
     run = (before ++ [ResponseTraced response (translateToAnthropic response)],
            Returned (JsonBody (translateToAnthropic response))))
  ∧ (ownProperties response !! "choices" = None →
     run = (before ++ fst callback, Returned (EventStream (written (fst callback))))).
Proof.
  intros Happ Hresp. cbv zeta.
  assert (isNonStreaming response = true ↔ is_Some (ownProperties response !! "choices"))
    as Hiff by apply bool_decide_eq_true.
  split; [exact Hiff|].
  rewrite complete_eq. cbv zeta. rewrite Hresp.
  assert ((if manualApprove (st env) then awaitApproval env else Returned tt)
          = Returned tt) as ->.
  { unfold approved in Happ. destruct (manualApprove (st env)); [|done].
    by destruct (awaitApproval env) as [[]|]. }
  split.
  - intros Hc. apply Hiff in Hc. rewrite Hc.
    simpl. by rewrite <- app_assoc.
  - intros Hc. destruct (isNonStreaming response) eqn:Hn.
    + assert (is_Some (ownProperties response !! "choices")) as Hs by (by apply Hiff).
      rewrite Hc in Hs. by destruct Hs.
    + simpl. by rewrite <- app_assoc.
Qed.

Lemma applyModelMapping_eq (modelName : string) (mappings : gmap string string)
    (verbose : bool) :
  ModelMapping.applyModelMapping modelName mappings verbose
  = match mappings !! modelName with
    | Some target =>
        if isEmpty target
        then {| ModelMapping.model := modelName; ModelMapping.mapped := false |}
        else {| ModelMapping.model := target; ModelMapping.mapped := true |}
    | None => {| ModelMapping.model := modelName; ModelMapping.mapped := false |}
    end.
Proof.
  unfold ModelMapping.applyModelMapping, ModelMapping.applyModelMappingLogged.
  destruct (mappings !! modelName) as [target|]; [|done].
  unfold truthy, falsy. simpl. by destruct (isEmpty target).
Qed.

(** C1. [applyModelMapping] is a function of the model name and the map
    alone: it returns the target with [mapped = true] when the map sends
    the name to a non-empty target, and the name itself with
    [mapped = false] otherwise; with [verbose] off it logs nothing. When
    the mappings in force send "claude-sonnet-4" to "claude-opus-4", a
    request for "claude-sonnet-4" reaches the backend, if at all, as the
    translation of the payload with model "claude-opus-4", and it does
    reach it once the approval gate lets it through. *)
Theorem model_mapping_applied (modelName : string) (mappings : gmap string string)
    (verbose : bool) (σ : ModelMapping.Store)
    (payload : AnthropicMessagesPayload PayloadRest) :
  ModelMapping.applyModelMapping modelName mappings verbose
  = match mappings !! modelName with
    | Some target =>
        if isEmpty target
        then {| ModelMapping.model := modelName; ModelMapping.mapped := false |}
        else {| ModelMapping.model := target; ModelMapping.mapped := true |}
    | None => {| ModelMapping.model := modelName; ModelMapping.mapped := false |}
    end
  ∧ snd (ModelMapping.applyModelMappingLogged modelName mappings false) = []
  ∧ (checkRateLimit env = Returned tt →
     requestJson env = Returned payload →
     model payload = "claude-sonnet-4" →
     currentMappings env σ !! "claude-sonnet-4" = Some "claude-opus-4" →
     let forwarded :=
       translateToOpenAI {| model := "claude-opus-4"; rest := rest payload |} in
     let log := fst (snd (handleCompletion translate env σ)) in
     (∀ request, BackendCalled request ∈ log → request = forwarded)
     ∧ (approved env = true → BackendCalled forwarded ∈ log)).
Proof.
  split; [apply applyModelMapping_eq|]. split.
  { unfold ModelMapping.applyModelMappingLogged. cbv zeta.
    by destruct (truthy (mappings !! modelName)). }
  intros Hrate Hjson Hmodel Hmap. cbv zeta.
  rewrite handleCompletion_eq, Hrate, Hjson. cbv zeta. cbn [fst].
  assert (applyMapping env (currentMappings env σ) payload
          = {| model := "claude-opus-4"; rest := rest payload |}) as ->.
  { unfold applyMapping. rewrite decide_True.
    2:{ assert (size (currentMappings env σ) ≠ 0%nat); [|lia].
        apply (map_size_ne_0_lookup_2 _ "claude-sonnet-4"). by rewrite Hmap. }
    rewrite applyModelMapping_eq, Hmodel, Hmap. done. }
  destruct (complete_effects {| model := "claude-opus-4"; rest := rest payload |})
    as (tail & -> & Htail).
  split.
  - intros request Hin.
    rewrite !elem_of_app, !elem_of_cons, elem_of_app in Hin.
    destruct Hin as [[?|[?|[?|?%elem_of_nil]]]|[?|[Hin|Hin]]]; try done.
    + unfold gate in Hin. destruct (manualApprove (st env)).
      * by apply elem_of_cons in Hin as [?|?%elem_of_nil].
      * by apply elem_of_nil in Hin.
    + destruct (approved env); [|by apply elem_of_nil in Hin].
      apply elem_of_cons in Hin as [[= ->]|Hin]; [done|].
      rewrite Forall_forall in Htail. by apply Htail in Hin.
  - intros ->. rewrite !elem_of_app, !elem_of_cons, elem_of_app.
    right. right. right. by left.
Qed.

End HandlerFacts.

(** ** The stream event translator *)

Module StreamTranslationFacts.
Import AnthropicTypes StreamTranslation.

Lemma typed_app (tag : string) (l1 l2 : list AnthropicEvent) :
  typed tag (l1 ++ l2) = (typed tag l1 + typed tag l2)%nat.
Proof. unfold typed. by rewrite filter_app, length_app. Qed.

Lemma typed_inner (events : list AnthropicEvent) :
  inner events →
  typed "message_start" events = 0%nat ∧ typed "message_stop" events = 0%nat.
Proof.
  unfold typed. induction 1 as [|e events [H1 H2] _ [IH1 IH2]]; [done|].
  rewrite !filter_cons, decide_False, decide_False by done. done.
Qed.

Lemma inner_app (l1 l2 : list AnthropicEvent) :
  inner l1 → inner l2 → inner (l1 ++ l2).
Proof. intros. by apply Forall_app. Qed.

Lemma closeOpenBlock_inner (s : AnthropicStreamState) :
  inner (fst (closeOpenBlock s))
  ∧ messageStartSent (snd (closeOpenBlock s)) = messageStartSent s.
Proof.
  unfold closeOpenBlock. destruct (contentBlockOpen s); simpl; split; try done.
  - by repeat constructor.
  - constructor.
Qed.

Lemma translateText_inner (fragment : string) (s : AnthropicStreamState) :
  inner (fst (translateText fragment s))
  ∧ messageStartSent (snd (translateText fragment s)) = messageStartSent s.
Proof.
  unfold translateText. destruct (textBlockOpen s).
  - simpl. split; [by repeat constructor|done].
  - destruct (closeOpenBlock_inner s) as [Hc Hs].
    destruct (closeOpenBlock s) as [closing s0]. simpl in *. split; [|done].
    apply inner_app; [|by repeat constructor].
    apply inner_app; [done|by repeat constructor].
Qed.

Lemma translateToolCall_inner (acc : list AnthropicEvent * AnthropicStreamState)
    (entry : ToolCallDelta) :
  inner (fst acc) →
  inner (fst (translateToolCall acc entry))
  ∧ messageStartSent (snd (translateToolCall acc entry)) = messageStartSent (snd acc).
Proof.
  destruct acc as [events s]. simpl. intros Hev. unfold translateToolCall.
  assert (inner (match function_arguments entry with
                 | Some partial =>
                     [content_block_delta
                        (match toolCalls s !! index entry with
                         | Some known => content_block_index known
                         | None => contentBlockIndex (openBlock (snd (closeOpenBlock s)))
                         end) (input_json_delta partial)]
                 | None => []
                 end)) as Hfrag.
  { destruct (function_arguments entry); [by repeat constructor|constructor]. }
  destruct (toolCalls s !! index entry) as [known|].
  - simpl. split; [|done]. apply inner_app; [done|]. exact Hfrag.
  - destruct (closeOpenBlock_inner s) as [Hc Hs].
    destruct (closeOpenBlock s) as [closing s0]. simpl in *. split; [|done].
    apply inner_app; [done|]. apply inner_app; [|exact Hfrag].
    apply inner_app; [done|by repeat constructor].
Qed.

Lemma translateToolCalls_inner (entries : list ToolCallDelta) :
  ∀ acc, inner (fst acc) →
         inner (fst (fold_left translateToolCall entries acc))
         ∧ messageStartSent (snd (fold_left translateToolCall entries acc))
           = messageStartSent (snd acc).
Proof.
  induction entries as [|entry entries IH]; intros acc Hacc; simpl; [done|].
  destruct (translateToolCall_inner acc entry Hacc) as [Hi Hs].
  destruct (IH _ Hi) as [Hi' Hs']. split; [done|]. by rewrite Hs'.
Qed.

(** The events of one chunk: nothing, or an optional [message_start],
    then inner events, then [message_stop] when the chunk finishes. *)
Lemma translate_shape (chunk : ChatCompletionChunk) (s : AnthropicStreamState) :
  let r := translateChunkToAnthropicEvents chunk s in
  (finish_reason chunk = None ∧ r = ([], s))
  ∨ ∃ body,
      inner body
      ∧ fst r = (if messageStartSent s then [] else [message_start (chunk_model chunk)])
                ++ body
                ++ (match finish_reason chunk with
                    | Some _ => [message_stop]
                    | None => []
                    end)
      ∧ messageStartSent (snd r) = true.
Proof.
  cbv zeta. unfold translateChunkToAnthropicEvents.
  destruct (isEmptyDelta (delta chunk) && bool_decide (finish_reason chunk = None)) eqn:E.
  { left. by apply andb_true_iff in E as [_ E%bool_decide_eq_true]. }
  right. clear E.
  destruct (startMessage chunk s) as [ev1 s1] eqn:H1.
  assert (ev1 = (if messageStartSent s then [] else [message_start (chunk_model chunk)])
          ∧ messageStartSent s1 = true) as [-> Hs1].
  { unfold startMessage in H1.
    destruct (messageStartSent s) eqn:Hs; inversion H1; subst; simpl; auto. }
  set (r2 := match content (delta chunk) with
             | Some fragment =>
                 if JsString.isEmpty fragment then ([], s1)
                 else translateText fragment s1
             | None => ([], s1)
             end).
  assert (inner (fst r2) ∧ messageStartSent (snd r2) = true) as [Hi2 Hs2].
  { subst r2. destruct (content (delta chunk)) as [fragment|]; [|by split; [constructor|]].
    destruct (JsString.isEmpty fragment); [by split; [constructor|]|].
    destruct (translateText_inner fragment s1) as [? ->]. done. }
  destruct r2 as [ev2 s2]. simpl in Hi2, Hs2.
  destruct (translateToolCalls_inner (default [] (tool_calls (delta chunk))) ([], s2))
    as [Hi3 Hs3]; [constructor|].
  destruct (fold_left translateToolCall _ _) as [ev3 s3]. simpl in Hi3, Hs3.
  destruct (finish_reason chunk) as [reason|].
  - unfold finishMessage.
    destruct (closeOpenBlock_inner s3) as [Hc Hs4].
    destruct (closeOpenBlock s3) as [closing s4]. simpl in *.
    exists (ev2 ++ ev3 ++ closing ++ [message_delta (mapStopReason reason)]).
    split; [|split].
    + repeat apply inner_app; try done. by repeat constructor.
    + by rewrite <- !app_assoc.
    + congruence.
  - simpl. exists (ev2 ++ ev3). split; [by apply inner_app|].
    split; [by rewrite !app_nil_r|congruence].
Qed.

End StreamTranslationFacts.

(** ** The stream as the client sees it *)

Section StreamFacts.
Import JsString AnthropicTypes StreamTranslation StreamTranslationFacts Handler.
Context `{Imports}.
Variable env : Env.

Local Abbreviation translator := StreamTranslation.translateChunkToAnthropicEvents.

Lemma translateAll_app (chunks later : list ChatCompletionChunk)
    (s : AnthropicStreamState) :
  translateAll translator (chunks ++ later) s
  = (fst (translateAll translator chunks s)
       ++ fst (translateAll translator later (snd (translateAll translator chunks s))),
     snd (translateAll translator later (snd (translateAll translator chunks s)))).
Proof.
  revert s; induction chunks as [|c chunks IH]; intros s; simpl.
  - by destruct (translateAll translator later s).
  - destruct (translator c s) as [events s1]. rewrite IH.
    destruct (translateAll translator chunks s1) as [more s2]. simpl.
    by rewrite app_assoc.
Qed.

(** A [message_start] is the first event or is not there at all. *)
Lemma translateAll_start (chunks : list ChatCompletionChunk) :
  ∀ s, let r := translateAll translator chunks s in
       (messageStartSent s = true →
        typed "message_start" (fst r) = 0%nat ∧ messageStartSent (snd r) = true)
       ∧ (messageStartSent s = false →
          (fst r = [] ∧ messageStartSent (snd r) = false)
          ∨ ∃ m rest, fst r = message_start m :: rest
                      ∧ typed "message_start" rest = 0%nat
                      ∧ messageStartSent (snd r) = true).
Proof.
  induction chunks as [|c chunks IH]; intros s; cbv zeta; simpl.
  { split; auto. }
  destruct (translate_shape c s) as [[_ E]|(body & Hb & E & Hs)].
  { cbv zeta in E. rewrite E. specialize (IH s). cbv zeta in IH.
    destruct (translateAll translator chunks s) as [more s2]. simpl in *.
    exact IH. }
  cbv zeta in E, Hs.
  destruct (translator c s) as [events s1]. simpl in E, Hs. subst events.
  destruct (IH s1) as (Hsent & _). destruct (Hsent Hs) as [Hstart Hs2].
  destruct (translateAll translator chunks s1) as [more s2]. simpl in *.
  destruct (typed_inner body Hb) as [Hb1 _].
  assert (typed "message_start"
            (match finish_reason c with Some _ => [message_stop] | None => [] end)
          = 0%nat) as Htail by (by destruct (finish_reason c)).
  destruct (messageStartSent s) eqn:Hsent0; simpl.
  - split; [|done]. intros _.
    rewrite !typed_app, Hb1, Htail, Hstart. done.
  - split; [done|]. intros _. right.
    exists (chunk_model c),
      ((body ++ match finish_reason c with Some _ => [message_stop] | None => [] end)
         ++ more).
    split; [done|].
    rewrite !typed_app, Hb1, Htail, Hstart. done.
Qed.

(** One [message_stop] per finishing chunk. *)
Lemma translate_stops (chunk : ChatCompletionChunk) (s : AnthropicStreamState) :
  typed "message_stop" (fst (translator chunk s))
  = match finish_reason chunk with Some _ => 1%nat | None => 0%nat end.
Proof.
  destruct (translate_shape chunk s) as [[Hf E]|(body & Hb & E & _)];
    cbv zeta in E; rewrite E.
  - by rewrite Hf.
  - destruct (typed_inner body Hb) as [_ Hb2].
    rewrite !typed_app, Hb2.
    by destruct (messageStartSent s), (finish_reason chunk).
Qed.

Lemma translateAll_stops (chunks : list ChatCompletionChunk) :
  ∀ s, typed "message_stop" (fst (translateAll translator chunks s))
       = finishing chunks.
Proof.
  unfold finishing.
  induction chunks as [|c chunks IH]; intros s; simpl; [done|].
  pose proof (translate_stops c s) as Hc.
  destruct (translator c s) as [events s1]. simpl in Hc.
  specialize (IH s1).
  destruct (translateAll translator chunks s1) as [more s2]. simpl in *.
  rewrite typed_app, Hc, IH, filter_cons.
  destruct (finish_reason c) as [reason|].
  - by rewrite decide_True by eauto.
  - rewrite decide_False; [done|]. by intros [? ?].
Qed.

(** The events of a finishing chunk end with [message_stop]. *)
Lemma translateAll_last (chunks : list ChatCompletionChunk)
    (final : ChatCompletionChunk) (s : AnthropicStreamState) :
  is_Some (finish_reason final) →
  last (fst (translateAll translator (chunks ++ [final]) s)) = Some message_stop.
Proof.
  intros [reason Hfin]. rewrite translateAll_app. cbn [fst].
  destruct (translateAll translator chunks s) as [before s1]. simpl.
  destruct (translate_shape final s1) as [[E _]|(body & _ & E & _)];
    [congruence|].
  cbv zeta in E. rewrite Hfin in E.
  destruct (translator final s1) as [events s2]. simpl in *. subst events.
  rewrite app_nil_r, !app_assoc. apply last_snoc.
Qed.

Lemma finishing_last (chunks : list ChatCompletionChunk) (final : ChatCompletionChunk) :
  Forall (λ c, finish_reason c = None) chunks →
  is_Some (finish_reason final) →
  finishing (chunks ++ [final]) = 1%nat.
Proof.
  intros Hchunks Hfinal. unfold finishing.
  rewrite filter_app, length_app, filter_cons, decide_True by done. simpl.
  replace (filter _ chunks) with (@nil ChatCompletionChunk); [done|].
  symmetry. induction Hchunks as [|c chunks Hc _ IH]; [done|].
  rewrite filter_cons, decide_False; [done|]. rewrite Hc. by intros [? ?].
Qed.

Lemma tagged_frames (tag : string) (events : list AnthropicEvent) :
  tagged tag (map frame events) = typed tag events.
Proof.
  unfold tagged, typed. induction events as [|e events IH]; [done|].
  simpl. rewrite !filter_cons. simpl.
  destruct (decide (type e = tag)); simpl; by rewrite IH.
Qed.

Lemma last_frame (events : list AnthropicEvent) (e : AnthropicEvent) :
  last events = Some e → SSE.event <$> last (map frame events) = Some (type e).
Proof.
  intros Hl. destruct events as [|e0 events _] using rev_ind; [done|].
  rewrite last_snoc in Hl. injection Hl as ->.
  rewrite map_app. simpl. by rewrite last_snoc.
Qed.

(** C3. The messages written contain at most one [message_start], and
    when anything is written it is the first message; they contain one
    [message_stop] per delivered chunk that carries a finish reason, and
    when the last delivered chunk carries one, [message_stop] is the last
    message. So when the chunks a response delivers end with the one chunk
    that carries a finish reason, there is exactly one [message_start],
    the first message, and exactly one [message_stop], the last. *)
Theorem stream_start_first_stop_last (response : list RawEvent)
    (traceTimestamp : option string) :
  let frames := written (fst (streamCallback translator env response traceTimestamp)) in
  (frames = []
   ∨ (tagged "message_start" frames = 1%nat
      ∧ SSE.event <$> head frames = Some "message_start"))
  ∧ tagged "message_stop" frames = finishing (delivered response)
  ∧ (∀ chunks final,
       delivered response = chunks ++ [final] →
       is_Some (finish_reason final) →
       SSE.event <$> last frames = Some "message_stop")
  ∧ (∀ chunks final,
       delivered response = chunks ++ [final] →
       Forall (λ c, finish_reason c = None) chunks →
       is_Some (finish_reason final) →
       tagged "message_start" frames = 1%nat
       ∧ SSE.event <$> head frames = Some "message_start"
       ∧ tagged "message_stop" frames = 1%nat
       ∧ SSE.event <$> last frames = Some "message_stop").
Proof.
  cbv zeta. rewrite streamCallback_written.
  assert (map frame (translateAll translator (delivered response) initialStreamState).1 = []
          ∨ (tagged "message_start"
               (map frame (translateAll translator (delivered response)
                             initialStreamState).1) = 1%nat
             ∧ SSE.event <$> head (map frame (translateAll translator
                                     (delivered response) initialStreamState).1)
               = Some "message_start")) as Hstart.
  { destruct (translateAll_start (delivered response) initialStreamState)
      as [_ Hs]. cbv zeta in Hs.
    destruct (Hs eq_refl) as [[-> _]|(m & rest & -> & Hrest & _)]; [by left|].
    right. rewrite tagged_frames.
    change (message_start m :: rest) with ([message_start m] ++ rest).
    by rewrite typed_app, Hrest. }
  assert (tagged "message_stop"
            (map frame (translateAll translator (delivered response)
                          initialStreamState).1)
          = finishing (delivered response)) as Hstop.
  { by rewrite tagged_frames, translateAll_stops. }
  assert (∀ chunks final,
            delivered response = chunks ++ [final] →
            is_Some (finish_reason final) →
            SSE.event <$> last (map frame (translateAll translator
                                  (delivered response) initialStreamState).1)
            = Some "message_stop") as Hlast.
  { intros chunks final -> Hfinal.
    by apply (last_frame _ message_stop), translateAll_last. }
  split; [exact Hstart|]. split; [exact Hstop|]. split; [exact Hlast|].
  intros chunks final Hdel Hchunks Hfinal.
  specialize (Hlast chunks final Hdel Hfinal).
  rewrite Hdel in Hstop, Hstart, Hlast |- *.
  rewrite (finishing_last _ _ Hchunks Hfinal) in Hstop.
  destruct Hstart as [E|[H1 H2]]; [by rewrite E in Hstop|].
  done.
Qed.

End StreamFacts.

(** ** Tracing cannot fail a request *)

Section TracerIsolation.
Import JsString AnthropicTypes Handler.
Context `{Imports}.
Variable translate :
  ChatCompletionChunk → AnthropicStreamState →
  list AnthropicEvent * AnthropicStreamState.
Variable env : Env.

(** C7. Whatever the arguments and whatever the file system does,
    [ensureTraceFolder], [traceResponse] and [StreamTracer.finish] return
    normally and [traceRequest] returns a value, which is [null] when
    tracing is disabled, when no trace folder is set, and when the
    serialization or the write fails. A handler run under another
    behaviour of the trace host settles the same way. *)
Theorem tracer_never_raises {Value : Type} (st0 : State) (host0 : Trace.Host Value)
    (request response : Value) (timestamp : option string)
    (tracer : Trace.StreamTracer Value)
    (other : Trace.Host TraceValue)
    (payload : AnthropicMessagesPayload PayloadRest) :
  Trace.ensureTraceFolder st0 host0 = Returned tt
  ∧ Trace.traceResponse st0 host0 response timestamp = Returned tt
  ∧ Trace.finish st0 host0 tracer = Returned tt
  ∧ (∃ result,
       Trace.traceRequest st0 host0 request = Returned result
       ∧ (traceEnabled st0 = false → result = None)
       ∧ (falsy (traceFolder st0) = true → result = None)
       ∧ (returns (Trace.JSON_stringify host0 (Trace.Payload request)) = false →
          result = None)
       ∧ (∀ content,
            Trace.JSON_stringify host0 (Trace.Payload request) = Returned content →
            returns (Trace.writeFile host0
                       (Trace.join host0 (Trace.folder st0)
                          (Trace.getTimestamp host0 +:+ ".req")) content) = false →
            result = None))
  ∧ snd (complete translate (withHost env other) payload)
    = snd (complete translate env payload).
Proof.
  split; [apply TraceFacts.ensureTraceFolder_returns|].
  split; [apply TraceFacts.traceResponse_returns|].
  split; [apply TraceFacts.finish_returns|].
  split.
  - eexists. split; [apply TraceFacts.traceRequest_returns|].
    unfold Trace.tracingOff. repeat split.
    + by intros ->.
    + intros ->. by rewrite orb_true_r.
    + destruct (negb _ || _); [done|].
      by destruct (Trace.JSON_stringify host0 _).
    + intros content -> Hw. destruct (negb _ || _); [done|]. simpl.
      by rewrite Hw.
  - rewrite !complete_eq. simpl.
    destruct (if manualApprove (st env) then awaitApproval env else Returned tt);
      [|done].
    destruct (createChatCompletions env _) as [resp|e]; [|done].
    destruct (isNonStreaming resp); [done|]. simpl.
    by rewrite !streamCallback_written.
Qed.

End TracerIsolation.

(* ===================================================================== *)
(** * Concrete runs *)
(* ===================================================================== *)

Module Examples.
Import JsString AnthropicTypes Handler.

Local Abbreviation translator := StreamTranslation.translateChunkToAnthropicEvents.

(** The cases of the test suite of model-mapping.ts. *)

Example parse_undefined : ModelMapping.parseModelMappings None = ∅.
Proof. reflexivity. Qed.

Example parse_empty : ModelMapping.parseModelMappings (Some "") = ∅.
Proof. reflexivity. Qed.

Example parse_blank : ModelMapping.parseModelMappings (Some "   ") = ∅.
Proof. reflexivity. Qed.

Example parse_with_spaces :
  ModelMapping.parseModelMappings
    (Some " claude-sonnet-4 : claude-opus-4 , gpt-4 : gpt-4-turbo ")
  = <["claude-sonnet-4" := "claude-opus-4"]> {[ "gpt-4" := "gpt-4-turbo" ]}.
Proof. vm_compute. reflexivity. Qed.

Example parse_skips_invalid :
  ModelMapping.parseModelMappingsLogged
    (Some ":target,source:,invalid-mapping,valid-source:valid-target,")
  = ({[ "valid-source" := "valid-target" ]},
     [ModelMapping.InvalidMapping ":target";
      ModelMapping.InvalidMapping "source:";
      ModelMapping.InvalidFormat "invalid-mapping"]).
Proof. vm_compute. reflexivity. Qed.

Example parse_colons_in_target :
  ModelMapping.parseModelMappings (Some "source:target:with:colons")
  = {[ "source" := "target:with:colons" ]}.
Proof. vm_compute. reflexivity. Qed.

Example apply_no_match :
  ModelMapping.applyModelMapping "gpt-4" {[ "claude-sonnet-4" := "claude-opus-4" ]} false
  = {| ModelMapping.model := "gpt-4"; ModelMapping.mapped := false |}.
Proof. reflexivity. Qed.

Example apply_match :
  ModelMapping.applyModelMapping "claude-sonnet-4"
    {[ "claude-sonnet-4" := "claude-opus-4" ]} true
  = {| ModelMapping.model := "claude-opus-4"; ModelMapping.mapped := true |}.
Proof. reflexivity. Qed.

(** C1, as first stated, fails: a key whose target is the empty string is
    a key of the map, and the name comes back unmapped. *)
Lemma applyModelMapping_empty_target :
  ¬ (∀ (modelName : string) (mappings : gmap string string) (target : string),
       mappings !! modelName = Some target →
       ModelMapping.applyModelMapping modelName mappings false
       = {| ModelMapping.model := target; ModelMapping.mapped := true |}).
Proof.
  intros Hall.
  specialize (Hall "gpt-4" {[ "gpt-4" := "" ]} "" eq_refl).
  discriminate Hall.
Qed.

(** C1 at the request of the specification's example. *)
Lemma model_mapping_applied_witness :
  @BackendCalled Demo.imports "claude-opus-4"
  ∈ fst (snd (handleCompletion translator Demo.env ModelMapping.initialStore)).
Proof.
  destruct (model_mapping_applied translator Demo.env "" ∅ false
              ModelMapping.initialStore Demo.request) as (_ & _ & Hrun).
  assert (currentMappings Demo.env ModelMapping.initialStore !! "claude-sonnet-4"
          = Some "claude-opus-4") as Hmap by (vm_compute; reflexivity).
  destruct (Hrun eq_refl eq_refl eq_refl Hmap) as [_ Hcall].
  exact (Hcall eq_refl).
Defined.

(** C2, as first stated, fails: the block index starts at 0. *)
Lemma initial_block_index_is_not_minus_one :
  contentBlockIndex initialStreamState ≠ -1.
Proof. discriminate. Qed.

(** C3, as first stated, fails: a response that is the sentinel alone
    writes no message at all, and a response without a finishing chunk
    writes no [message_stop]. *)
Lemma stream_without_finish_has_no_stop :
  tagged "message_start"
    (written (fst (streamCallback translator Demo.env
                     [ {| data := Some "[DONE]" |} ] None))) ≠ 1%nat
  ∧ tagged "message_stop"
      (written (fst (streamCallback translator Demo.env
                       [ {| data := Some "text" |}; {| data := Some "[DONE]" |} ]
                       None))) ≠ 1%nat.
Proof. split; vm_compute; discriminate. Qed.

(** C3 at a text chunk, a finishing chunk and the sentinel. *)
Lemma stream_start_first_stop_last_witness :
  let frames := written (fst (streamCallback translator Demo.env Demo.stream None)) in
  tagged "message_start" frames = 1%nat
  ∧ SSE.event <$> head frames = Some "message_start"
  ∧ tagged "message_stop" frames = 1%nat
  ∧ SSE.event <$> last frames = Some "message_stop".
Proof.
  destruct (stream_start_first_stop_last Demo.env Demo.stream None)
    as (_ & _ & _ & Hone).
  apply (Hone [Demo.textChunk] Demo.stopChunk).
  - reflexivity.
  - repeat constructor.
  - by eexists.
Defined.

(** C6 at the same stream: one flush, at the end. *)
Lemma stream_handoff_then_flush_witness :
  ∃ body tracer,
    fst (streamCallback translator Demo.env Demo.stream None)
    = body ++ [TracerFinished tracer]
    ∧ Forall (λ e, isFlush e = false) body.
Proof.
  destruct (stream_handoff_then_flush translator Demo.env Demo.stream None)
    as (_ & _ & Hflush & _).
  apply Hflush. reflexivity.
Defined.

(** C6, as first stated, fails: when the data of a raw event is not JSON,
    the message of the chunk before it has been written and the tracer is
    not flushed, not even once. *)
Lemma stream_with_malformed_data_is_never_flushed :
  length (written (fst (streamCallback translator Demo.env
                          [ {| data := Some "text" |}; {| data := Some "oops" |};
                            {| data := Some "[DONE]" |} ] None))) = 3%nat
  ∧ length (filter (λ e, isFlush e = true)
              (fst (streamCallback translator Demo.env
                      [ {| data := Some "text" |}; {| data := Some "oops" |};
                        {| data := Some "[DONE]" |} ] None))) ≠ 1%nat.
Proof. split; vm_compute; [reflexivity | discriminate]. Qed.

(** C7 on a host whose every write fails. *)
Lemma tracer_never_raises_witness :
  Trace.traceRequest Demo.tracing Demo.failingHost tt = Returned None.
Proof.
  destruct (tracer_never_raises translator Demo.env Demo.tracing
              (@Demo.failingHost unit) tt tt None (Trace.newStreamTracer None)
              Demo.failingHost Demo.request)
    as (_ & _ & _ & (result & E & _ & _ & _ & Hwrite) & _).
  rewrite E. f_equal. apply (Hwrite "{}"); reflexivity.
Defined.

(** C10 at a backend result without "choices". *)
Lemma response_routing_witness :
  ∃ frames,
    snd (complete translator Demo.env Demo.request) = Returned (EventStream frames).
Proof.
  destruct (response_routing translator Demo.env Demo.request Demo.streamingResponse)
    as (_ & _ & Hstream); [reflexivity | reflexivity |].
  rewrite Hstream by reflexivity. by eexists.
Defined.

End Examples.

(* ===================================================================== *)
(** * Further properties *)
(* ===================================================================== *)

(** ** Strings *)

Module JsStringMore.
Import JsString JsStringFacts Readings.

Lemma contains_app (c : ascii) (a b : string) :
  contains c (a +:+ b) = contains c a || contains c b.
Proof.
  induction a as [|x a IH]; [done|].
  rewrite app_cons. simpl. by rewrite IH, orb_assoc.
Qed.

Lemma allWhite_app (a b : string) :
  allWhite (a +:+ b) = allWhite a && allWhite b.
Proof.
  induction a as [|x a IH]; [done|].
  rewrite app_cons. simpl. by rewrite IH, andb_assoc.
Qed.

Lemma allWhite_contains (c : ascii) (w : string) :
  isWhiteSpace c = false → allWhite w = true → contains c w = false.
Proof.
  intros Hc. induction w as [|x w IH]; simpl; [done|].
  intros [Hx Hw]%andb_true_iff. rewrite (IH Hw), orb_false_r.
  apply Ascii.eqb_neq. intros ->. congruence.
Qed.

Lemma trimStart_white (w s : string) :
  allWhite w = true → trimStart (w +:+ s) = trimStart s.
Proof.
  induction w as [|x w IH]; [done|]. rewrite app_cons. simpl.
  intros [Hx Hw]%andb_true_iff. rewrite Hx. by apply IH.
Qed.

Lemma trimStart_fixed (s : string) :
  startsWithSpace s = false → trimStart s = s.
Proof. destruct s as [|c r]; simpl; [done|]. by intros ->. Qed.

Lemma trimEnd_allWhite (w : string) : allWhite w = true → trimEnd w = EmptyString.
Proof.
  induction w as [|x w IH]; simpl; [done|].
  intros [Hx Hw]%andb_true_iff. by rewrite Hx, (IH Hw).
Qed.

Lemma trimEnd_white (s w : string) :
  allWhite w = true → trimEnd (s +:+ w) = trimEnd s.
Proof.
  intros Hw. induction s as [|c r IH]; [by apply trimEnd_allWhite|].
  rewrite app_cons. simpl. by rewrite IH.
Qed.

Lemma trimEnd_fixed (s : string) : endsWithSpace s = false → trimEnd s = s.
Proof.
  induction s as [|c r IH]; [done|].
  destruct r as [|c' r'].
  - simpl. by intros ->.
  - intros Hr. change (endsWithSpace (String c' r') = false) in Hr.
    change (trimEnd (String c (String c' r')))
      with (if isWhiteSpace c && isEmpty (trimEnd (String c' r'))
            then EmptyString else String c (trimEnd (String c' r'))).
    rewrite (IH Hr). simpl. by rewrite andb_false_r.
Qed.

Lemma startsWithSpace_app (a b : string) :
  isEmpty a = false → startsWithSpace (a +:+ b) = startsWithSpace a.
Proof. by destruct a. Qed.

Lemma endsWithSpace_app (a b : string) :
  isEmpty b = false → endsWithSpace (a +:+ b) = endsWithSpace b.
Proof.
  intros Hb. induction a as [|c r IH]; [done|].
  rewrite app_cons. destruct (r +:+ b) as [|c' r'] eqn:E.
  - destruct r, b; done.
  - exact IH.
Qed.

(** White space around a string that has none at its ends is what [trim]
    removes. *)
Lemma trim_padded (w1 s w2 : string) :
  allWhite w1 = true → allWhite w2 = true →
  isEmpty s = false → startsWithSpace s = false → endsWithSpace s = false →
  trim (w1 +:+ s +:+ w2) = s.
Proof.
  intros H1 H2 Hs Hstart Hend. unfold trim.
  rewrite (trimStart_white _ _ H1), trimStart_fixed.
  - rewrite (trimEnd_white _ _ H2). by apply trimEnd_fixed.
  - by rewrite startsWithSpace_app.
Qed.

Lemma trimEnd_empty_allWhite (s : string) :
  isEmpty (trimEnd s) = true → allWhite s = true.
Proof.
  induction s as [|c r IH]; simpl; [done|].
  destruct (isWhiteSpace c) eqn:Hc; simpl; [|done].
  destruct (isEmpty (trimEnd r)) eqn:Hr; simpl; [auto|done].
Qed.

Lemma trimStart_allWhite (s : string) :
  allWhite (trimStart s) = true → allWhite s = true.
Proof.
  induction s as [|c r IH]; simpl; [done|].
  destruct (isWhiteSpace c) eqn:Hc; simpl; [auto|]. by rewrite Hc.
Qed.

(** A string with a character that is not white space does not trim to
    the empty string. *)
Lemma trim_not_empty (c : ascii) (s : string) :
  isWhiteSpace c = false → contains c s = true → isEmpty (trim s) = false.
Proof.
  intros Hc Hin. destruct (isEmpty (trim s)) eqn:E; [|done].
  apply trimEnd_empty_allWhite, trimStart_allWhite in E.
  by rewrite (allWhite_contains c s Hc E) in Hin.
Qed.

Lemma split_not_nil (sep : ascii) (s : string) : split sep s ≠ [].
Proof.
  induction s as [|c r IH]; simpl; [done|].
  destruct (Ascii.eqb c sep); [done|]. by destruct (split sep r).
Qed.

Lemma split_no_separator (sep : ascii) (s : string) :
  contains sep s = false → split sep s = [s].
Proof.
  induction s as [|c r IH]; simpl; [done|].
  intros [Hc Hr]%orb_false_elim. by rewrite Hc, (IH Hr).
Qed.

(** The piece after the last separator is the last element. *)
Lemma split_last (sep : ascii) (v p : string) :
  contains sep p = false →
  split sep (v +:+ String sep p) = split sep v ++ [p].
Proof.
  intros Hp. induction v as [|c r IH].
  - rewrite app_empty. simpl. by rewrite Ascii.eqb_refl, (split_no_separator _ _ Hp).
  - rewrite app_cons. simpl. rewrite IH.
    destruct (Ascii.eqb c sep); [done|].
    pose proof (split_not_nil sep r). by destruct (split sep r).
Qed.

Lemma split_length (sep : ascii) (s : string) :
  length (split sep s) = S (occurrences sep s).
Proof.
  induction s as [|c r IH]; simpl; [done|].
  destruct (Ascii.eqb c sep); simpl; [by rewrite IH|].
  pose proof (split_not_nil sep r).
  destruct (split sep r); [done|]. simpl in *. lia.
Qed.

End JsStringMore.

(** ** Model mapping *)

Module ModelMappingMore.
Import JsString JsStringFacts JsStringMore Readings ModelMapping ModelMappingFacts.

(** A well-formed entry sets its mapping and logs nothing. *)
Lemma parsePair_valid (m : gmap string string) (logs : list LogEntry)
    (pair pre post : string) :
  trim pair = pre +:+ String ":"%char post →
  contains ":"%char pre = false →
  isEmpty (trim pre) = false → isEmpty (trim post) = false →
  parsePair (m, logs) pair = (<[trim pre := trim post]> m, logs).
Proof.
  intros Ht Hpre H1 H2. unfold parsePair. cbv zeta.
  rewrite Ht, isEmpty_app_cons, (indexOf_first _ _ _ Hpre).
  destruct (Z.eqb_spec (Z.of_nat (String.length pre)) (-1)) as [E|_]; [lia|].
  by rewrite slice_before, slice_after, H1, H2.
Qed.

Lemma fold_left_snoc {A B : Type} (f : A → B → A) (l : list B) (x : B) (a : A) :
  fold_left f (l ++ [x]) a = f (fold_left f l a) x.
Proof. by rewrite fold_left_app. Qed.

(** X1. The last entry of the list wins: when the text after the last
    comma is a well-formed entry, the parsed map sends its source to its
    target, whatever the entries before it say about that source. *)
Theorem parse_last_entry_wins (v pair pre post : string) :
  contains ","%char pair = false →
  trim pair = pre +:+ String ":"%char post →
  contains ":"%char pre = false →
  isEmpty (trim pre) = false → isEmpty (trim post) = false →
  parseModelMappings (Some (v +:+ String ","%char pair)) !! trim pre
  = Some (trim post).
Proof.
  intros Hpair Ht Hpre H1 H2.
  unfold parseModelMappings, parseModelMappingsLogged.
  rewrite isEmpty_app_cons.
  rewrite (trim_not_empty ","%char); [|done|].
  2:{ rewrite contains_app. simpl. by rewrite orb_true_r. }
  simpl. rewrite (split_last _ _ _ Hpair), fold_left_snoc.
  destruct (fold_left parsePair (split ","%char v) (∅, [])) as [m logs].
  rewrite (parsePair_valid m logs pair pre post Ht Hpre H1 H2). simpl.
  apply lookup_insert_eq.
Qed.

(** X2. White space around an entry, around its source and around its
    target does not matter: the entry sets the mapping from the bare source
    to the bare target and logs nothing. *)
Theorem parsePair_ignores_white_space (m : gmap string string)
    (logs : list LogEntry) (w1 w2 w3 w4 source target : string) :
  allWhite w1 = true → allWhite w2 = true →
  allWhite w3 = true → allWhite w4 = true →
  clean source → clean target → contains ":"%char source = false →
  parsePair (m, logs)
    (w1 +:+ (source +:+ w2) +:+ String ":"%char (w3 +:+ target) +:+ w4)
  = (<[source := target]> m, logs).
Proof.
  intros H1 H2 H3 H4 (Hs0 & Hs1 & Hs2) (Ht0 & Ht1 & Ht2) Hcolon.
  assert (trim (source +:+ w2) = source) as Esource.
  { rewrite <- (app_empty (source +:+ w2)). by apply trim_padded. }
  assert (trim (w3 +:+ target) = target) as Etarget.
  { replace (w3 +:+ target) with (w3 +:+ target +:+ EmptyString).
    - by apply trim_padded.
    - f_equal. clear. induction target as [|c r IH]; [done|].
      rewrite app_cons. by f_equal. }
  rewrite <- Esource at 2. rewrite <- Etarget at 2.
  apply parsePair_valid.
  - replace (w1 +:+ (source +:+ w2) +:+ String ":"%char (w3 +:+ target) +:+ w4)
      with (w1 +:+ ((source +:+ w2) +:+ String ":"%char (w3 +:+ target)) +:+ w4).
    2:{ f_equal. clear. induction (source +:+ w2) as [|c r IH]; [done|].
        rewrite !app_cons. by f_equal. }
    apply trim_padded; try done.
    + by destruct source.
    + destruct source; [done|]. by rewrite !app_cons.
    + change (String ":"%char (w3 +:+ target))
        with ((String ":"%char w3) +:+ target).
      rewrite endsWithSpace_app; [|done]. by rewrite endsWithSpace_app.
  - rewrite contains_app, Hcolon. by apply allWhite_contains.
  - by rewrite Esource.
  - by rewrite Etarget.
Qed.

Lemma parsePair_account (m : gmap string string) (logs : list LogEntry)
    (pair : string) :
  (size (fst (parsePair (m, logs) pair)) + length (snd (parsePair (m, logs) pair))
   ≤ S (size m + length logs))%nat.
Proof.
  unfold parsePair. cbv zeta.
  destruct (isEmpty (trim pair)); [simpl; lia|].
  destruct (indexOf (trim pair) ":"%char =? -1).
  { simpl. rewrite List.length_app. simpl. lia. }
  destruct (isEmpty _ || isEmpty _).
  { simpl. rewrite List.length_app. simpl. lia. }
  simpl. pose proof (map_size_insert (trim (slice (trim pair) 0
                       (Some (indexOf (trim pair) ":"%char))))
                       (trim (slice (trim pair)
                          (indexOf (trim pair) ":"%char + 1) None)) m) as Hsz.
  destruct (m !! _); simpl in Hsz; unfold id in Hsz; lia.
Qed.

Lemma fold_parsePair_account (pairs : list string) :
  ∀ acc,
    (size (fst (fold_left parsePair pairs acc))
     + length (snd (fold_left parsePair pairs acc))
     ≤ length pairs + (size (fst acc) + length (snd acc)))%nat.
Proof.
  induction pairs as [|pair pairs IH]; intros [m logs]; [simpl; lia|].
  cbn [fold_left length fst snd].
  specialize (IH (parsePair (m, logs) pair)).
  pose proof (parsePair_account m logs pair). lia.
Qed.

(** X3. Every comma-separated entry accounts for at most one mapping or
    one warning: the size of the parsed map plus the number of warnings is
    at most the number of commas plus one; for [undefined] both are zero. *)
Theorem parse_accounts_for_entries (envValue : option string) :
  (size (fst (parseModelMappingsLogged envValue))
   + length (snd (parseModelMappingsLogged envValue))
   ≤ match envValue with
     | Some v => S (occurrences ","%char v)
     | None => 0
     end)%nat.
Proof.
  unfold parseModelMappingsLogged. destruct envValue as [v|]; [|done].
  destruct (isEmpty v || isEmpty (trim v)); [simpl; rewrite map_size_empty; lia|].
  pose proof (fold_parsePair_account (split ","%char v) (∅, [])) as Hacc.
  rewrite split_length in Hacc. simpl in Hacc. rewrite map_size_empty in Hacc. lia.
Qed.

(** The entries of a parsed map are clean on both sides. *)
Lemma parse_clean (envValue : option string) :
  map_Forall (λ source target, clean source ∧ clean target)
             (parseModelMappings envValue).
Proof.
  unfold parseModelMappings, parseModelMappingsLogged.
  destruct envValue as [v|]; [|apply map_Forall_empty].
  destruct (isEmpty v || isEmpty (trim v)); [apply map_Forall_empty|].
  apply fold_parsePair_entries; [|apply map_Forall_empty].
  intros pair pre post _ _ _ E1 E2.
  repeat split; auto using trim_startsWithSpace, trim_endsWithSpace.
Qed.

(** X4. On a map parsed from the environment the lookup is exact: a model
    name is mapped exactly when it is a key, to the target of that key; and
    a name that is empty or has white space at either end is never mapped,
    because the keys are trimmed and the requested name is not. *)
Theorem apply_on_parsed_mappings (envValue : option string) (modelName : string)
    (verbose : bool) :
  applyModelMapping modelName (parseModelMappings envValue) verbose
  = match parseModelMappings envValue !! modelName with
    | Some target => {| model := target; mapped := true |}
    | None => {| model := modelName; mapped := false |}
    end
  ∧ (isEmpty modelName || startsWithSpace modelName || endsWithSpace modelName = true →
     applyModelMapping modelName (parseModelMappings envValue) verbose
     = {| model := modelName; mapped := false |}).
Proof.
  pose proof (parse_clean envValue) as Hclean.
  assert (applyModelMapping modelName (parseModelMappings envValue) verbose
          = match parseModelMappings envValue !! modelName with
            | Some target => {| model := target; mapped := true |}
            | None => {| model := modelName; mapped := false |}
            end) as Heq.
  { unfold applyModelMapping, applyModelMappingLogged. cbv zeta.
    destruct (parseModelMappings envValue !! modelName) as [target|] eqn:E; [|done].
    destruct (Hclean _ _ E) as [_ (Ht & _ & _)].
    unfold truthy, falsy. by rewrite Ht. }
  split; [exact Heq|].
  intros Hbad. rewrite Heq.
  destruct (parseModelMappings envValue !! modelName) as [target|] eqn:E; [|done].
  destruct (Hclean _ _ E) as [(H0 & H1 & H2) _].
  by rewrite H0, H1, H2 in Hbad.
Qed.

Lemma call_keeps_heap (σ : Store) (c : Call) (ref : nat) (m : gmap string string) :
  heap σ !! ref = Some m → heap (call σ c) !! ref = Some m.
Proof.
  intros Href. destruct c as [envValue|]; simpl; [|done].
  unfold getModelMappings. cbv zeta.
  destruct (cachedMappings σ) as [r|]; [destruct (decide _); [done|]|];
    simpl; by apply lookup_app_l_Some.
Qed.

(** X5. A map object handed out once is never changed afterwards: whatever
    calls of [getModelMappings] and [clearModelMappingsCache] follow, under
    whatever environment values, the object keeps its contents, and each
    call allocates at most one new map. *)
Theorem returned_maps_are_stable (σ : Store) (calls : list Call) (ref : nat)
    (m : gmap string string) :
  heap σ !! ref = Some m →
  heap (fold_left call calls σ) !! ref = Some m
  ∧ (length (heap σ) ≤ length (heap (fold_left call calls σ))
     ≤ length (heap σ) + length calls)%nat.
Proof.
  revert σ. induction calls as [|c calls IH]; intros σ Href; simpl.
  { split; [done|lia]. }
  destruct (IH (call σ c) (call_keeps_heap σ c ref m Href)) as [Hm Hlen].
  split; [done|].
  assert (length (heap σ) ≤ length (heap (call σ c)) ≤ S (length (heap σ)))%nat.
  { destruct c as [envValue|]; simpl; [|lia].
    unfold getModelMappings. cbv zeta.
    destruct (cachedMappings σ) as [r|]; [destruct (decide _); [simpl; lia|]|];
      simpl; rewrite List.length_app; simpl; lia. }
  lia.
Qed.

(** X6. Clearing the cache forces a new parse: the call after
    [clearModelMappingsCache] returns a newly allocated map, another object
    than the one returned before, with the same contents when the
    environment value is the same; the earlier object is still there. *)
Theorem clear_forces_new_map (calls : list Call) (envValue : option string) :
  let first := getModelMappings envValue (after calls) in
  let again := getModelMappings envValue (clearModelMappingsCache first.1.2) in
  again.1.1 ≠ first.1.1
  ∧ heap again.1.2 !! again.1.1 = Some (parseModelMappings envValue)
  ∧ heap again.1.2 !! first.1.1 = Some (parseModelMappings envValue).
Proof.
  intros first again.
  destruct (getModelMappings_spec envValue (after calls) (consistent_after calls))
    as (Hheap & _).
  fold first in Hheap.
  assert (again.1.1 = length (heap first.1.2)) as Eref by done.
  split; [|split].
  - rewrite Eref. apply lookup_lt_Some in Hheap. lia.
  - subst again. unfold getModelMappings. simpl.
    rewrite lookup_app_r by lia. by rewrite Nat.sub_diag.
  - subst again. unfold getModelMappings. simpl.
    by apply lookup_app_l_Some.
Qed.

Lemma split_pieces (sep : ascii) (s piece : string) :
  piece ∈ split sep s → contains sep piece = false.
Proof.
  revert piece; induction s as [|c r IH]; intros piece; simpl.
  { by intros ->%list_elem_of_singleton. }
  destruct (Ascii.eqb c sep) eqn:Hc.
  - intros [->|Hin]%elem_of_cons; [done|by apply IH].
  - pose proof (split_not_nil sep r).
    destruct (split sep r) as [|h t]; [done|].
    intros [->|Hin]%elem_of_cons.
    + simpl. rewrite Hc. apply IH. by left.
    + apply IH. by right.
Qed.

Lemma trimStart_contains (c : ascii) (s : string) :
  contains c s = false → contains c (trimStart s) = false.
Proof.
  induction s as [|a r IH]; simpl; [done|].
  intros [Ha Hr]%orb_false_elim.
  destruct (isWhiteSpace a); [by apply IH|]. simpl. by rewrite Ha, Hr.
Qed.

Lemma trimEnd_contains (c : ascii) (s : string) :
  contains c s = false → contains c (trimEnd s) = false.
Proof.
  induction s as [|a r IH]; simpl; [done|].
  intros [Ha Hr]%orb_false_elim.
  destruct (isWhiteSpace a && isEmpty (trimEnd r)); [done|].
  simpl. by rewrite Ha, (IH Hr).
Qed.

Lemma trim_contains (c : ascii) (s : string) :
  contains c s = false → contains c (trim s) = false.
Proof. intros Hs. by apply trimEnd_contains, trimStart_contains. Qed.

(** X16. No key of a parsed map contains a colon or a comma, and no value
    contains a comma; so a model name with a colon or a comma in it is
    never mapped by mappings that come from the environment. *)
Theorem separators_cannot_be_mapped (envValue : option string) (modelName : string)
    (verbose : bool) :
  map_Forall (λ source target,
                contains ":"%char source = false
                ∧ contains ","%char source = false
                ∧ contains ","%char target = false)
             (parseModelMappings envValue)
  ∧ (contains ":"%char modelName || contains ","%char modelName = true →
     applyModelMapping modelName (parseModelMappings envValue) verbose
     = {| model := modelName; mapped := false |}).
Proof.
  assert (map_Forall (λ source target,
                        contains ":"%char source = false
                        ∧ contains ","%char source = false
                        ∧ contains ","%char target = false)
                     (parseModelMappings envValue)) as Hkeys.
  { unfold parseModelMappings, parseModelMappingsLogged.
    destruct envValue as [v|]; [|apply map_Forall_empty].
    destruct (isEmpty v || isEmpty (trim v)); [apply map_Forall_empty|].
    apply fold_parsePair_entries; [|apply map_Forall_empty].
    intros pair pre post Hin Ht Hpre _ _.
    apply split_pieces, (trim_contains ","%char) in Hin.
    rewrite Ht, contains_app in Hin. apply orb_false_elim in Hin as [H1 H2].
    simpl in H2. repeat split; by apply trim_contains. }
  split; [exact Hkeys|].
  intros Hbad. unfold applyModelMapping, applyModelMappingLogged. cbv zeta.
  destruct (parseModelMappings envValue !! modelName) as [target|] eqn:E; [|done].
  destruct (Hkeys _ _ E) as (H1 & H2 & _). by rewrite H1, H2 in Hbad.
Qed.

End ModelMappingMore.

(** ** The completion handler *)

Section HandlerMore.
Import JsString AnthropicTypes Handler Readings.
Context `{Imports}.
Variable translate :
  ChatCompletionChunk → AnthropicStreamState →
  list AnthropicEvent * AnthropicStreamState.
Variable env : Env.

Lemma pairs_app (l1 l2 : list Effect) : pairs (l1 ++ l2) = pairs l1 ++ pairs l2.
Proof. apply flat_map_app. Qed.

Lemma pairs_handedOff (events : list AnthropicEvent) : pairs (handedOff events) = [].
Proof. by induction events. Qed.

Lemma pairs_length (log : list Effect) : length (pairs log) = length (produced log).
Proof.
  induction log as [|e log IH]; [done|].
  change (e :: log) with ([e] ++ log).
  rewrite pairs_app, (produced_app [e] log), !List.length_app, IH. f_equal.
  destruct e; simpl; try done. by rewrite !app_nil_r, length_map.
Qed.

Lemma fed_chunks (chunk : ChatCompletionChunk) (events : list AnthropicEvent) :
  ∀ tracer,
    Trace.chunks (fed env chunk events tracer)
    = Trace.chunks tracer
      ++ (if traceEnabled (st env) then map (TracedChunk chunk) events else [])
    ∧ Trace.timestamp (fed env chunk events tracer) = Trace.timestamp tracer.
Proof.
  unfold fed. induction events as [|e events IH]; intros tracer; simpl.
  { destruct (traceEnabled (st env)); by rewrite app_nil_r. }
  destruct (IH (Trace.addChunk (st env) (TracedChunk chunk e) tracer)) as [-> ->].
  unfold Trace.addChunk. destruct (traceEnabled (st env)); simpl; [|done].
  by rewrite <- app_assoc.
Qed.

(** What the loop leaves in the tracer. *)
Lemma forAwait_tracer (response : list RawEvent) :
  ∀ s tracer final,
    snd (forAwait translate env response s tracer) = Returned final →
    Trace.chunks (snd final)
    = Trace.chunks tracer
      ++ (if traceEnabled (st env)
          then pairs (fst (forAwait translate env response s tracer)) else [])
    ∧ Trace.timestamp (snd final) = Trace.timestamp tracer.
Proof.
  induction response as [|r later IH]; intros s tracer final.
  { simpl. intros [= <-]. simpl. destruct (traceEnabled (st env)); by rewrite app_nil_r. }
  rewrite (forAwait_cons translate env).
  destruct (isSentinel r).
  { simpl. intros [= <-]. simpl. destruct (traceEnabled (st env)); by rewrite app_nil_r. }
  destruct (falsy (data r)); [simpl; by apply IH|].
  destruct (JSON_parse (default EmptyString (data r))) as [chunk|e]; [|done].
  cbv zeta. cbn [fst snd]. intros Hfinal.
  destruct (IH _ _ _ Hfinal) as [-> ->].
  destruct (fed_chunks chunk (translate chunk s).1 tracer) as [-> ->].
  split; [|done].
  change (EventReceived r :: ChunkTranslated chunk (translate chunk s).1 ::
            handedOff (translate chunk s).1 ++
            (forAwait translate env later (translate chunk s).2
               (fed env chunk (translate chunk s).1 tracer)).1)
    with ([EventReceived r; ChunkTranslated chunk (translate chunk s).1] ++
            handedOff (translate chunk s).1 ++
            (forAwait translate env later (translate chunk s).2
               (fed env chunk (translate chunk s).1 tracer)).1).
  rewrite !pairs_app, pairs_handedOff. simpl.
  destruct (traceEnabled (st env)); simpl.
  - by rewrite !app_nil_r, <- app_assoc.
  - by rewrite !app_nil_r.
Qed.

(** X7. What the tracer holds when it is flushed: the timestamp the
    request trace returned and, when tracing is enabled, one pair of chunk
    and event per message written, in the order of writing; nothing when
    tracing is disabled. *)
Theorem flushed_tracer_holds_written_pairs (response : list RawEvent)
    (traceTimestamp : option string) (body : list Effect)
    (tracer : Trace.StreamTracer TraceValue) :
  fst (streamCallback translate env response traceTimestamp)
  = body ++ [TracerFinished tracer] →
  Trace.timestamp tracer = traceTimestamp
  ∧ Trace.chunks tracer = (if traceEnabled (st env) then pairs body else [])
  ∧ length (pairs body) = length (written body).
Proof.
  rewrite (streamCallback_eq translate env). cbv zeta.
  pose proof (forAwait_no_flush translate env response initialStreamState
                (Trace.newStreamTracer traceTimestamp)) as Hnf.
  pose proof (forAwait_written translate env response initialStreamState
                (Trace.newStreamTracer traceTimestamp)) as Hw.
  pose proof (forAwait_tracer response initialStreamState
                (Trace.newStreamTracer traceTimestamp)) as Ht.
  destruct (forAwait translate env response initialStreamState
              (Trace.newStreamTracer traceTimestamp)) as [l [final|e]];
    simpl in *; intros E.
  - apply app_inj_tail in E as [<- [= <-]].
    destruct (Ht final eq_refl) as [-> ->]. simpl.
    split; [done|]. split; [done|].
    by rewrite pairs_length, Hw, length_map.
  - exfalso. rewrite E in Hnf. apply Forall_app in Hnf as [_ Hnf].
    by inversion Hnf.
Qed.

Lemma forAwait_app (pre rest : list RawEvent) :
  ∀ s tracer final,
    existsb isSentinel pre = false →
    snd (forAwait translate env pre s tracer) = Returned final →
    forAwait translate env (pre ++ rest) s tracer
    = (fst (forAwait translate env pre s tracer)
         ++ fst (forAwait translate env rest (fst final) (snd final)),
       snd (forAwait translate env rest (fst final) (snd final))).
Proof.
  induction pre as [|r pre IH]; intros s tracer final.
  { simpl. intros _ [= <-]. simpl. by destruct (forAwait translate env rest s tracer). }
  simpl existsb. intros [Hr Hpre]%orb_false_elim.
  rewrite <- app_comm_cons, !(forAwait_cons translate env), Hr.
  destruct (falsy (data r)).
  { simpl. intros Hfinal. by rewrite (IH _ _ _ Hpre Hfinal). }
  destruct (JSON_parse (default EmptyString (data r))) as [chunk|e]; [|done].
  cbv zeta. cbn [fst snd]. intros Hfinal.
  rewrite (IH _ _ _ Hpre Hfinal). cbn [fst snd].
  by rewrite !app_comm_cons, app_assoc.
Qed.

(** X8. A raw event whose data is not the JSON text of a chunk ends the
    callback with the parser's error: the messages of the events before it
    have been written, nothing after it is read, and the tracer is never
    flushed. *)
Theorem malformed_event_aborts_stream (pre post : list RawEvent) (bad : RawEvent)
    (error : string) (traceTimestamp : option string) :
  wellFormed pre = true → existsb isSentinel pre = false →
  isSentinel bad = false → hasData bad = true →
  JSON_parse (default EmptyString (data bad)) = Raised error →
  let run := streamCallback translate env (pre ++ bad :: post) traceTimestamp in
  snd run = Raised error
  ∧ (∃ before, fst run = before ++ [EventReceived bad]
               ∧ written before
                 = written (fst (streamCallback translate env pre traceTimestamp)))
  ∧ Forall (λ e, isFlush e = false) (fst run).
Proof.
  intros Hwf Hnos Hbad Hdata Hparse. cbv zeta.
  rewrite !(streamCallback_eq translate env). cbv zeta.
  pose proof (forAwait_returns translate env pre initialStreamState
                (Trace.newStreamTracer traceTimestamp) Hwf) as Hret.
  pose proof (forAwait_no_flush translate env pre initialStreamState
                (Trace.newStreamTracer traceTimestamp)) as Hnf.
  destruct (snd (forAwait translate env pre initialStreamState
                   (Trace.newStreamTracer traceTimestamp))) as [final|] eqn:Hfinal;
    [|done].
  rewrite (forAwait_app pre (bad :: post) _ _ final Hnos Hfinal).
  rewrite (forAwait_cons translate env), Hbad.
  unfold hasData, truthy in Hdata. apply negb_true_iff in Hdata.
  rewrite Hdata, Hparse. simpl.
  split; [done|]. split.
  - eexists. split; [done|]. rewrite written_app. simpl. by rewrite app_nil_r.
  - apply Forall_app. split; [done|]. by repeat constructor.
Qed.

End HandlerMore.

Section HandlerFailures.
Import JsString AnthropicTypes Handler Readings.
Context `{Imports}.
Variable translate :
  ChatCompletionChunk → AnthropicStreamState →
  list AnthropicEvent * AnthropicStreamState.

(** X9. A failure stops the handler where it happens and is passed on
    unchanged: a rate-limit error before the body is read, a body that
    cannot be read before the mapping lookup (the cache is not touched in
    either case), a rejected approval before the backend is called, and a
    backend error before anything of the response is traced or written. *)
Theorem failure_stops_the_handler (env : Env) (σ : ModelMapping.Store)
    (error : string) :
  (checkRateLimit env = Raised error →
   handleCompletion translate env σ = (σ, ([RateLimitChecked], Raised error)))
  ∧ (∀ u, checkRateLimit env = Returned u → requestJson env = Raised error →
          handleCompletion translate env σ
          = (σ, ([RateLimitChecked; RequestRead], Raised error)))
  ∧ (∀ u payload,
       checkRateLimit env = Returned u → requestJson env = Returned payload →
       manualApprove (st env) = true → awaitApproval env = Raised error →
       snd (handleCompletion translate env σ)
       = ([RateLimitChecked; RequestRead; MappingsLookedUp;
           RequestTraced (applyMapping env (currentMappings env σ) payload);
           ApprovalAwaited],
          Raised error))
  ∧ (∀ u payload,
       checkRateLimit env = Returned u → requestJson env = Returned payload →
       approved env = true →
       createChatCompletions env
         (translateToOpenAI (applyMapping env (currentMappings env σ) payload))
       = Raised error →
       snd (handleCompletion translate env σ)
       = ([RateLimitChecked; RequestRead; MappingsLookedUp;
           RequestTraced (applyMapping env (currentMappings env σ) payload)]
            ++ gate env
            ++ [BackendCalled
                  (translateToOpenAI
                     (applyMapping env (currentMappings env σ) payload))],
          Raised error)).
Proof.
  split; [|split; [|split]].
  - intros Hrate. unfold handleCompletion. by rewrite Hrate.
  - intros u Hrate Hjson. unfold handleCompletion. by rewrite Hrate, Hjson.
  - intros u payload Hrate Hjson Hmanual Hreject.
    rewrite (handleCompletion_eq translate env), Hrate, Hjson. cbv zeta.
    rewrite (complete_eq translate env), Hmanual, Hreject.
    unfold gate. by rewrite Hmanual.
  - intros u payload Hrate Hjson Happ Hbackend.
    rewrite (handleCompletion_eq translate env), Hrate, Hjson. cbv zeta.
    rewrite (complete_eq translate env). cbv zeta. rewrite Hbackend.
    assert ((if manualApprove (st env) then awaitApproval env else Returned tt)
            = Returned tt) as ->.
    { unfold approved in Happ. destruct (manualApprove (st env)); [|done].
      by destruct (awaitApproval env) as [[]|]. }
    done.
Qed.

(** The mapping block, without its size guard. *)
Lemma applyMapping_eq (env : Env) (mappings : gmap string string)
    (payload : AnthropicMessagesPayload PayloadRest) :
  applyMapping env mappings payload
  = {| model := ModelMapping.model
                  (ModelMapping.applyModelMapping (model payload) mappings
                     (verbose (st env)));
       rest := rest payload |}.
Proof.
  unfold applyMapping. rewrite (applyModelMapping_eq (model payload) mappings).
  destruct (decide (0 < size mappings)%nat) as [Hsize|Hsize].
  - destruct (mappings !! model payload) as [target|]; [|by destruct payload].
    destruct (isEmpty target); [by destruct payload|done].
  - assert (mappings = ∅) as -> by (apply map_size_empty_iff; lia).
    rewrite lookup_empty. by destruct payload.
Qed.

(** X10. The mapping block of the handler changes the model name to what
    [applyModelMapping] returns and nothing else; the guard on the size of
    the map makes no difference to the result. So a request whose model has
    no mapping, or is mapped to the empty string, is traced and forwarded
    as it came. *)
Theorem mapping_block_touches_model_only (env : Env) (σ : ModelMapping.Store)
    (mappings : gmap string string)
    (payload : AnthropicMessagesPayload PayloadRest) :
  rest (applyMapping env mappings payload) = rest payload
  ∧ model (applyMapping env mappings payload)
    = ModelMapping.model
        (ModelMapping.applyModelMapping (model payload) mappings false)
  ∧ (∀ u,
       checkRateLimit env = Returned u → requestJson env = Returned payload →
       approved env = true →
       falsy (currentMappings env σ !! model payload) = true →
       let log := fst (snd (handleCompletion translate env σ)) in
       backendCalls log = [translateToOpenAI payload]
       ∧ RequestTraced payload ∈ log).
Proof.
  rewrite applyMapping_eq. split; [done|]. split.
  { simpl. by rewrite !(applyModelMapping_eq (model payload) mappings). }
  intros u Hrate Hjson Happ Hnone. cbv zeta.
  rewrite (handleCompletion_eq translate env), Hrate, Hjson. cbv zeta. cbn [fst].
  assert (applyMapping env (currentMappings env σ) payload = payload) as ->.
  { rewrite applyMapping_eq, (applyModelMapping_eq (model payload)).
    unfold falsy in Hnone.
    destruct (currentMappings env σ !! model payload) as [target|];
      [rewrite Hnone|]; by destruct payload. }
  destruct (complete_effects translate env payload) as (tail & -> & Htail).
  rewrite Happ. split.
  - unfold backendCalls, gate. simpl.
    destruct (manualApprove (st env)); simpl; f_equal.
    all: induction Htail as [|e tail He _ IH]; [done|].
    all: simpl; rewrite IH; by destruct e.
  - rewrite elem_of_app, !elem_of_cons. right. by left.
Qed.

Lemma delivered_hasData (response : list RawEvent) :
  delivered (filter (λ r, hasData r = true) response) = delivered response.
Proof.
  induction response as [|r later IH]; [done|].
  rewrite filter_cons. destruct (decide (hasData r = true)) as [Hd|Hd].
  - simpl. by rewrite IH.
  - apply not_true_is_false in Hd. unfold hasData, truthy in Hd.
    apply negb_false_iff in Hd. simpl. rewrite Hd, IH.
    destruct (isSentinel r) eqn:Hs; [|done].
    unfold isSentinel in Hs. apply bool_decide_eq_true in Hs.
    by rewrite Hs in Hd.
Qed.

Lemma delivered_sentinel (pre post : list RawEvent) (sentinel : RawEvent) :
  isSentinel sentinel = true →
  delivered (pre ++ sentinel :: post) = delivered (pre ++ [sentinel]).
Proof.
  intros Hs. induction pre as [|r pre IH]; simpl; [by rewrite Hs|].
  by rewrite IH.
Qed.

(** X11. What a stream writes depends on the chunks it delivers only: raw
    events without data can be dropped from the response, everything after
    the sentinel can be dropped, and the trace timestamp and the state of
    tracing can change, without changing the messages written. *)
Theorem messages_depend_on_chunks_only (env env' : Env) (response pre post : list RawEvent)
    (sentinel : RawEvent) (timestamp timestamp' : option string) :
  written (fst (streamCallback translate env
                  (filter (λ r, hasData r = true) response) timestamp))
  = written (fst (streamCallback translate env' response timestamp'))
  ∧ (isSentinel sentinel = true →
     written (fst (streamCallback translate env (pre ++ sentinel :: post) timestamp))
     = written (fst (streamCallback translate env' (pre ++ [sentinel]) timestamp'))).
Proof.
  split.
  - by rewrite !(streamCallback_written translate), delivered_hasData.
  - intros Hs.
    by rewrite !(streamCallback_written translate), (delivered_sentinel _ _ _ Hs).
Qed.

(** X12. The mappings are parsed once per environment value, not once per
    request: a request handled after another one under the same value of
    MODEL_MAPPINGS leaves the cache as it found it and reads the same
    mappings. *)
Theorem later_request_reuses_mappings (env env' : Env) (σ : ModelMapping.Store) :
  returns (checkRateLimit env) = true → returns (requestJson env) = true →
  MODEL_MAPPINGS env' = MODEL_MAPPINGS env →
  let σ1 := fst (handleCompletion translate env σ) in
  fst (handleCompletion translate env' σ1) = σ1
  ∧ currentMappings env' σ1 = currentMappings env σ.
Proof.
  intros Hrate Hjson Henv. cbv zeta.
  unfold handleCompletion, currentMappings.
  destruct (checkRateLimit env) as [u|]; [|done].
  destruct (requestJson env) as [payload|]; [|done].
  rewrite Henv.
  assert (∀ e s,
            ModelMapping.getModelMappings e (ModelMapping.getModelMappings e s).1.2
            = ((ModelMapping.getModelMappings e s).1.1,
               (ModelMapping.getModelMappings e s).1.2, [])) as Hhit.
  { intros e s.
    assert (ModelMapping.cachedMappings (ModelMapping.getModelMappings e s).1.2
            = Some (ModelMapping.getModelMappings e s).1.1
            ∧ ModelMapping.cachedEnvValue (ModelMapping.getModelMappings e s).1.2 = e)
      as [Hc He].
    { unfold ModelMapping.getModelMappings. cbv zeta.
      destruct (ModelMapping.cachedMappings s) as [ref|] eqn:Hc; [|done].
      by destruct (decide (ModelMapping.cachedEnvValue s = e)). }
    generalize dependent (ModelMapping.getModelMappings e s).
    intros [[ref s1] logs] Hc He. simpl in *.
    unfold ModelMapping.getModelMappings. cbv zeta. rewrite Hc, He.
    by rewrite decide_True. }
  specialize (Hhit (MODEL_MAPPINGS env) σ).
  destruct (ModelMapping.getModelMappings (MODEL_MAPPINGS env) σ) as [[ref σ1] logs].
  simpl in *. rewrite Hhit.
  split; [|done].
  destruct (checkRateLimit env') as [u'|]; [|done].
  by destruct (requestJson env') as [payload'|].
Qed.

End HandlerFailures.

(** ** The name of a trace file *)

Module TimestampFacts.
Import JsString JsStringFacts Timestamp.

Lemma matches_app (p1 p2 : list bool) (s1 s2 : string) :
  matches p1 s1 = true → matches p2 s2 = true →
  matches (p1 ++ p2) (s1 +:+ s2) = true.
Proof.
  revert s1; induction p1 as [|d p1 IH]; intros [|c s1]; simpl; try done.
  intros [Hc Hs]%andb_true_iff H2.
  change (matches (d :: p1 ++ p2) (String c (s1 +:+ s2)) = true). simpl.
  by rewrite Hc, (IH _ Hs H2).
Qed.

Lemma matches_length (p : list bool) (s : string) :
  matches p s = true → String.length s = length p.
Proof.
  revert s; induction p as [|d p IH]; intros [|c s]; simpl; try done.
  intros [_ Hs]%andb_true_iff. by rewrite (IH _ Hs).
Qed.

Lemma string_app_inj (a a' b b' : string) :
  String.length a = String.length a' →
  a +:+ b = a' +:+ b' → a = a' ∧ b = b'.
Proof.
  revert a'; induction a as [|c a IH]; intros [|c' a']; simpl; try done.
  intros [= Hlen] E. rewrite !app_cons in E. injection E as -> E.
  destruct (IH _ Hlen E) as [-> ->]. done.
Qed.

(** Two digits, read back as the number, for every number below 100. *)
Lemma two_digits (n : nat) :
  (n < 100)%nat →
  matches [true; true] (padStart (String_ n) 2 "0") = true
  ∧ digitsValue (padStart (String_ n) 2 "0") = n.
Proof.
  intros Hn.
  assert (forallb (λ n, matches [true; true] (padStart (String_ n) 2 "0")
                        && Nat.eqb (digitsValue (padStart (String_ n) 2 "0")) n)
                  (seq 0 100) = true) as Hall by (vm_compute; reflexivity).
  rewrite forallb_forall in Hall. specialize (Hall n).
  destruct (andb_prop _ _ (Hall ltac:(apply in_seq; lia))) as [H1 H2].
  split; [done|]. by apply Nat.eqb_eq.
Qed.

Lemma three_digits (n : nat) :
  (n < 1000)%nat →
  matches [true; true; true] (padStart (String_ n) 3 "0") = true
  ∧ digitsValue (padStart (String_ n) 3 "0") = n.
Proof.
  intros Hn.
  assert (forallb (λ n, matches [true; true; true] (padStart (String_ n) 3 "0")
                        && Nat.eqb (digitsValue (padStart (String_ n) 3 "0")) n)
                  (seq 0 1000) = true) as Hall by (vm_compute; reflexivity).
  rewrite forallb_forall in Hall. specialize (Hall n).
  destruct (andb_prop _ _ (Hall ltac:(apply in_seq; lia))) as [H1 H2].
  split; [done|]. by apply Nat.eqb_eq.
Qed.

Lemma four_digits (n : nat) :
  (1000 ≤ n < 10 * 1000)%nat →
  matches [true; true; true; true] (String_ n) = true
  ∧ digitsValue (String_ n) = n.
Proof.
  intros Hn.
  assert (forallb (λ n, matches [true; true; true; true] (String_ n)
                        && Nat.eqb (digitsValue (String_ n)) n)
                  (seq 1000 (9 * 1000)) = true) as Hall by (vm_compute; reflexivity).
  rewrite forallb_forall in Hall. specialize (Hall n).
  destruct (andb_prop _ _ (Hall ltac:(apply in_seq; lia))) as [H1 H2].
  split; [done|]. by apply Nat.eqb_eq.
Qed.

Lemma inRange_bounds (now : LocalTime) :
  inRange now = true →
  (getMonth now + 1 < 100 ∧ getDate now < 100 ∧ getHours now < 100
   ∧ getMinutes now < 100 ∧ getSeconds now < 100 ∧ getMilliseconds now < 1000)%nat.
Proof.
  unfold inRange. rewrite !andb_true_iff, !Nat.ltb_lt, !Nat.leb_le. lia.
Qed.

Lemma fourDigitYear_bounds (now : LocalTime) :
  fourDigitYear now = true → (1000 ≤ getFullYear now < 10 * 1000)%nat.
Proof. unfold fourDigitYear. rewrite andb_true_iff, Nat.ltb_lt, Nat.leb_le. lia. Qed.

(** X13. For a clock reading within the ranges of the getters and a year
    of four digits, the timestamp has the documented format
    YYYYMMDD_HHmmss_SSS: eight digits, an underscore, six digits, an
    underscore, three digits, nineteen characters in all. *)
Theorem getTimestamp_format (now : LocalTime) :
  inRange now = true → fourDigitYear now = true →
  matches documentedFormat (getTimestamp now) = true
  ∧ String.length (getTimestamp now) = 19%nat.
Proof.
  intros Hr Hy.
  destruct (inRange_bounds now Hr) as (Hmo & Hd & Hh & Hmi & Hs & Hms).
  pose proof (fourDigitYear_bounds now Hy) as Hyear.
  assert (matches documentedFormat (getTimestamp now) = true) as Hm.
  { unfold getTimestamp, documentedFormat. cbv zeta.
    change (repeat true 8 ++ [false] ++ repeat true 6 ++ [false] ++ repeat true 3)
      with ([true; true; true; true] ++ [true; true] ++ [true; true] ++ [false]
            ++ [true; true] ++ [true; true] ++ [true; true] ++ [false]
            ++ [true; true; true]).
    repeat (apply matches_app;
            [first [ by apply four_digits | by apply two_digits | reflexivity ]|]).
    by apply three_digits. }
  split; [exact Hm|]. by rewrite (matches_length _ _ Hm).
Qed.

Lemma same_pattern (p : list bool) (s t : string) :
  matches p s = true → matches p t = true → String.length s = String.length t.
Proof. intros Hs Ht. by rewrite (matches_length p s), (matches_length p t). Qed.

(** X14. Within those ranges, two clock readings that differ in any field,
    down to the millisecond, give different timestamps; only readings equal
    in every field share one. *)
Theorem getTimestamp_injective (a b : LocalTime) :
  inRange a = true → fourDigitYear a = true →
  inRange b = true → fourDigitYear b = true →
  getTimestamp a = getTimestamp b → a = b.
Proof.
  intros Hra Hya Hrb Hyb.
  destruct (inRange_bounds a Hra) as (Hmo & Hd & Hh & Hmi & Hs & Hms).
  destruct (inRange_bounds b Hrb) as (Hmo' & Hd' & Hh' & Hmi' & Hs' & Hms').
  pose proof (fourDigitYear_bounds a Hya) as Hyear.
  pose proof (fourDigitYear_bounds b Hyb) as Hyear'.
  unfold getTimestamp. cbv zeta. intros E.
  apply string_app_inj in E as [Ey E];
    [|by apply (same_pattern [true; true; true; true]); apply four_digits].
  apply string_app_inj in E as [Emo E];
    [|by apply (same_pattern [true; true]); apply two_digits].
  apply string_app_inj in E as [Ed E];
    [|by apply (same_pattern [true; true]); apply two_digits].
  apply (string_app_inj "_" "_") in E as [_ E]; [|done].
  apply string_app_inj in E as [Eh E];
    [|by apply (same_pattern [true; true]); apply two_digits].
  apply string_app_inj in E as [Emi E];
    [|by apply (same_pattern [true; true]); apply two_digits].
  apply string_app_inj in E as [Es E];
    [|by apply (same_pattern [true; true]); apply two_digits].
  apply (string_app_inj "_" "_") in E as [_ Ems]; [|done].
  apply (f_equal digitsValue) in Ey, Emo, Ed, Eh, Emi, Es, Ems.
  rewrite (proj2 (four_digits _ Hyear)), (proj2 (four_digits _ Hyear')) in Ey.
  rewrite (proj2 (two_digits _ Hmo)), (proj2 (two_digits _ Hmo')) in Emo.
  rewrite (proj2 (two_digits _ Hd)), (proj2 (two_digits _ Hd')) in Ed.
  rewrite (proj2 (two_digits _ Hh)), (proj2 (two_digits _ Hh')) in Eh.
  rewrite (proj2 (two_digits _ Hmi)), (proj2 (two_digits _ Hmi')) in Emi.
  rewrite (proj2 (two_digits _ Hs)), (proj2 (two_digits _ Hs')) in Es.
  rewrite (proj2 (three_digits _ Hms)), (proj2 (three_digits _ Hms')) in Ems.
  destruct a, b. simpl in *. f_equal; lia.
Qed.

Lemma compare_app (a a' b b' : string) :
  String.length a = String.length a' →
  String.compare (a +:+ b) (a' +:+ b')
  = match String.compare a a' with
    | Eq => String.compare b b'
    | c => c
    end.
Proof.
  revert a'; induction a as [|c a IH]; intros [|c' a']; simpl; try done.
  intros [= Hlen].
  change (String.compare (String c (a +:+ b)) (String c' (a' +:+ b'))
          = match (match Ascii.compare c c' with
                   | Eq => String.compare a a'
                   | ne => ne
                   end) with
            | Eq => String.compare b b'
            | c0 => c0
            end).
  simpl. destruct (Ascii.compare c c'); [by apply IH|done|done].
Qed.

Lemma digitsFrom_acc (s : string) :
  ∀ acc, digitsFrom acc s = (acc * 10 ^ String.length s + digitsFrom 0 s)%nat.
Proof.
  induction s as [|c r IH]; intros acc; [simpl; lia|].
  cbn [digitsFrom String.length].
  rewrite (IH (10 * acc + _)%nat), (IH (10 * 0 + _)%nat), Nat.pow_succ_r'. lia.
Qed.

Lemma digitsValue_cons (c : ascii) (r : string) :
  digitsValue (String c r)
  = ((N.to_nat (N_of_ascii c) - 48) * 10 ^ String.length r + digitsValue r)%nat.
Proof.
  unfold digitsValue. cbn [digitsFrom]. rewrite digitsFrom_acc. lia.
Qed.

Lemma digitsValue_bound (k : nat) (s : string) :
  matches (repeat true k) s = true → (digitsValue s < 10 ^ k)%nat.
Proof.
  revert s; induction k as [|k IH]; intros [|c r]; simpl; try done.
  { intros _. unfold digitsValue. simpl. lia. }
  intros [Hc Hr]%andb_true_iff. rewrite digitsValue_cons.
  rewrite (matches_length _ _ Hr), repeat_length.
  specialize (IH _ Hr).
  unfold isDigit in Hc. apply andb_true_iff in Hc as [H1 H2].
  apply N.leb_le in H1, H2. nia.
Qed.

(** Strings of the same number of digits compare like the numbers they
    write. *)
Lemma compare_digits (k : nat) (s t : string) :
  matches (repeat true k) s = true → matches (repeat true k) t = true →
  String.compare s t = Nat.compare (digitsValue s) (digitsValue t).
Proof.
  revert s t; induction k as [|k IH]; intros [|c s] [|d t]; simpl; try done.
  intros [Hc Hs]%andb_true_iff [Hd Ht]%andb_true_iff.
  rewrite !digitsValue_cons.
  rewrite (matches_length _ _ Hs), (matches_length _ _ Ht), repeat_length.
  pose proof (digitsValue_bound k s Hs) as Bs.
  pose proof (digitsValue_bound k t Ht) as Bt.
  unfold isDigit in Hc, Hd.
  apply andb_true_iff in Hc as [Hc1 Hc2]. apply andb_true_iff in Hd as [Hd1 Hd2].
  apply N.leb_le in Hc1, Hc2, Hd1, Hd2.
  unfold Ascii.compare.
  destruct (N.compare_spec (N_of_ascii c) (N_of_ascii d)) as [E|E|E].
  - rewrite E, (IH _ _ Hs Ht).
    destruct (Nat.compare_spec (digitsValue s) (digitsValue t));
      symmetry; [apply Nat.compare_eq_iff | apply Nat.compare_lt_iff
                | apply Nat.compare_gt_iff]; lia.
  - symmetry. apply Nat.compare_lt_iff. nia.
  - symmetry. apply Nat.compare_gt_iff. nia.
Qed.

(** X15. Within those ranges, timestamps compare, character by character,
    like the clock readings they come from compare field by field, from
    the year down to the millisecond. *)
Theorem getTimestamp_order (a b : LocalTime) :
  inRange a = true → fourDigitYear a = true →
  inRange b = true → fourDigitYear b = true →
  String.compare (getTimestamp a) (getTimestamp b) = chronological a b.
Proof.
  intros Hra Hya Hrb Hyb.
  destruct (inRange_bounds a Hra) as (Hmo & Hd & Hh & Hmi & Hs & Hms).
  destruct (inRange_bounds b Hrb) as (Hmo' & Hd' & Hh' & Hmi' & Hs' & Hms').
  pose proof (fourDigitYear_bounds a Hya) as Hyear.
  pose proof (fourDigitYear_bounds b Hyb) as Hyear'.
  unfold getTimestamp, chronological. cbv zeta.
  rewrite compare_app
    by (by apply (same_pattern [true; true; true; true]); apply four_digits).
  rewrite (compare_digits 4) by (by apply four_digits).
  rewrite (proj2 (four_digits _ Hyear)), (proj2 (four_digits _ Hyear')).
  destruct (getFullYear a ?= getFullYear b)%nat; [|done|done].
  rewrite compare_app by (by apply (same_pattern [true; true]); apply two_digits).
  rewrite (compare_digits 2) by (by apply two_digits).
  rewrite (proj2 (two_digits _ Hmo)), (proj2 (two_digits _ Hmo')).
  rewrite !Nat.add_1_r, Nat.compare_succ.
  destruct (getMonth a ?= getMonth b)%nat; [|done|done].
  rewrite compare_app by (by apply (same_pattern [true; true]); apply two_digits).
  rewrite (compare_digits 2) by (by apply two_digits).
  rewrite (proj2 (two_digits _ Hd)), (proj2 (two_digits _ Hd')).
  destruct (getDate a ?= getDate b)%nat; [|done|done].
  rewrite (compare_app "_" "_") by done.
  change (String.compare "_" "_") with Eq. cbv iota.
  rewrite compare_app by (by apply (same_pattern [true; true]); apply two_digits).
  rewrite (compare_digits 2) by (by apply two_digits).
  rewrite (proj2 (two_digits _ Hh)), (proj2 (two_digits _ Hh')).
  destruct (getHours a ?= getHours b)%nat; [|done|done].
  rewrite compare_app by (by apply (same_pattern [true; true]); apply two_digits).
  rewrite (compare_digits 2) by (by apply two_digits).
  rewrite (proj2 (two_digits _ Hmi)), (proj2 (two_digits _ Hmi')).
  destruct (getMinutes a ?= getMinutes b)%nat; [|done|done].
  rewrite compare_app by (by apply (same_pattern [true; true]); apply two_digits).
  rewrite (compare_digits 2) by (by apply two_digits).
  rewrite (proj2 (two_digits _ Hs)), (proj2 (two_digits _ Hs')).
  destruct (getSeconds a ?= getSeconds b)%nat; [|done|done].
  rewrite (compare_app "_" "_") by done.
  change (String.compare "_" "_") with Eq. cbv iota.
  rewrite (compare_digits 3) by (by apply three_digits).
  by rewrite (proj2 (three_digits _ Hms)), (proj2 (three_digits _ Hms')).
Qed.

End TimestampFacts.

(* ===================================================================== *)
(** * Further concrete runs *)
(* ===================================================================== *)

Module MoreExamples.
Import JsString AnthropicTypes Handler Readings.

Local Abbreviation translator := StreamTranslation.translateChunkToAnthropicEvents.

(** X1 at a list that maps the same source twice. *)
Lemma parse_last_entry_wins_witness :
  ModelMapping.parseModelMappings (Some "a:b,a:c") !! "a" = Some "c".
Proof.
  exact (ModelMappingMore.parse_last_entry_wins "a:b" "a:c" "a" "c"
           eq_refl eq_refl eq_refl eq_refl eq_refl).
Defined.

(** X2 at an entry with a blank at every place. *)
Lemma parsePair_ignores_white_space_witness :
  ModelMapping.parsePair (∅, []) " gpt-4 : gpt-4-turbo "
  = ({[ "gpt-4" := "gpt-4-turbo" ]}, []).
Proof.
  apply (ModelMappingMore.parsePair_ignores_white_space ∅ [] " " " " " " " "
           "gpt-4" "gpt-4-turbo"); try reflexivity; by repeat split.
Defined.

(** X4 at a name with a leading blank. *)
Lemma apply_on_parsed_mappings_witness :
  ModelMapping.applyModelMapping " gpt-4"
    (ModelMapping.parseModelMappings (Some "gpt-4:gpt-4-turbo")) false
  = {| ModelMapping.model := " gpt-4"; ModelMapping.mapped := false |}.
Proof.
  destruct (ModelMappingMore.apply_on_parsed_mappings (Some "gpt-4:gpt-4-turbo")
              " gpt-4" false) as [_ Hbad].
  apply Hbad. reflexivity.
Defined.

(** X5 at a map that survives a clear and a parse of another value. *)
Lemma returned_maps_are_stable_witness :
  ModelMapping.heap
    (fold_left ModelMapping.call
       [ModelMapping.CallClear; ModelMapping.CallGet (Some "c:d")]
       (ModelMapping.after [ModelMapping.CallGet (Some "a:b")])) !! 0%nat
  = Some {[ "a" := "b" ]}.
Proof.
  apply (ModelMappingMore.returned_maps_are_stable
           (ModelMapping.after [ModelMapping.CallGet (Some "a:b")])
           [ModelMapping.CallClear; ModelMapping.CallGet (Some "c:d")]
           0%nat {[ "a" := "b" ]}).
  vm_compute. reflexivity.
Defined.

(** X16 at a model name with a colon. *)
Lemma separators_cannot_be_mapped_witness :
  ModelMapping.applyModelMapping "ft:gpt-4"
    (ModelMapping.parseModelMappings (Some "ft:gpt-4:gpt-4-turbo")) false
  = {| ModelMapping.model := "ft:gpt-4"; ModelMapping.mapped := false |}.
Proof.
  destruct (ModelMappingMore.separators_cannot_be_mapped
              (Some "ft:gpt-4:gpt-4-turbo") "ft:gpt-4" false) as [_ Hbad].
  apply Hbad. reflexivity.
Defined.

(** X7 at the stream of the examples, with tracing enabled. *)
Lemma flushed_tracer_holds_written_pairs_witness :
  Trace.timestamp DemoMore.finalTracer = None
  ∧ Trace.chunks DemoMore.finalTracer = pairs (fst DemoMore.loop)
  ∧ length (pairs (fst DemoMore.loop)) = length (written (fst DemoMore.loop)).
Proof.
  apply (flushed_tracer_holds_written_pairs translator Demo.env Demo.stream None
           (fst DemoMore.loop) DemoMore.finalTracer).
  vm_compute. reflexivity.
Defined.

(** X8 at a text chunk followed by data that is no JSON. *)
Lemma malformed_event_aborts_stream_witness :
  snd (streamCallback translator Demo.env
         [ {| data := Some "text" |}; {| data := Some "oops" |};
           {| data := Some "stop" |} ] None)
  = Raised "SyntaxError".
Proof.
  apply (malformed_event_aborts_stream translator Demo.env
           [ {| data := Some "text" |} ] [ {| data := Some "stop" |} ]
           {| data := Some "oops" |} "SyntaxError" None); reflexivity.
Defined.

(** X9 at a rejected approval. *)
Lemma failure_stops_the_handler_witness :
  snd (snd (handleCompletion translator DemoMore.rejecting ModelMapping.initialStore))
  = Raised "rejected".
Proof.
  destruct (failure_stops_the_handler translator DemoMore.rejecting
              ModelMapping.initialStore "rejected") as (_ & _ & Hreject & _).
  by rewrite (Hreject tt Demo.request eq_refl eq_refl eq_refl eq_refl).
Defined.

(** X10 at a request with no mappings configured. *)
Lemma mapping_block_touches_model_only_witness :
  backendCalls
    (fst (snd (handleCompletion translator DemoMore.unmapped ModelMapping.initialStore)))
  = [ "claude-sonnet-4" ].
Proof.
  destruct (mapping_block_touches_model_only translator DemoMore.unmapped
              ModelMapping.initialStore ∅ Demo.request) as (_ & _ & Hsame).
  destruct (Hsame tt eq_refl eq_refl eq_refl eq_refl) as [Hcalls _].
  exact Hcalls.
Defined.

(** X11 at a stream with an event after the sentinel. *)
Lemma messages_depend_on_chunks_only_witness :
  written (fst (streamCallback translator Demo.env
                  (Demo.stream ++ [ {| data := Some "text" |} ]) None))
  = written (fst (streamCallback translator DemoMore.unmapped Demo.stream
                    (Some "20251204_143052_123"))).
Proof.
  destruct (messages_depend_on_chunks_only translator Demo.env DemoMore.unmapped []
              [ {| data := Some "text" |}; {| data := Some "stop" |} ]
              [ {| data := Some "text" |} ] {| data := Some "[DONE]" |}
              None (Some "20251204_143052_123")) as [_ Hcut].
  exact (Hcut eq_refl).
Defined.

(** X12 at two requests under the same mappings. *)
Lemma later_request_reuses_mappings_witness :
  fst (handleCompletion translator DemoMore.rejecting
         (fst (handleCompletion translator Demo.env ModelMapping.initialStore)))
  = fst (handleCompletion translator Demo.env ModelMapping.initialStore).
Proof.
  apply (later_request_reuses_mappings translator Demo.env DemoMore.rejecting
           ModelMapping.initialStore); reflexivity.
Defined.

(** X13 at the clock reading of the documentation. *)
Lemma getTimestamp_format_witness :
  Timestamp.getTimestamp DemoMore.documented = "20251204_143052_123"
  ∧ String.length (Timestamp.getTimestamp DemoMore.documented) = 19%nat.
Proof.
  split; [reflexivity|].
  apply (TimestampFacts.getTimestamp_format DemoMore.documented); reflexivity.
Defined.

(** X14 at two readings a millisecond apart. *)
Lemma getTimestamp_injective_witness :
  Timestamp.getTimestamp DemoMore.documented
  ≠ Timestamp.getTimestamp DemoMore.later.
Proof.
  intros E.
  pose proof (TimestampFacts.getTimestamp_injective DemoMore.documented
                DemoMore.later eq_refl eq_refl eq_refl eq_refl E) as Hsame.
  discriminate Hsame.
Defined.

(** X15 at the same two readings. *)
Lemma getTimestamp_order_witness :
  String.compare (Timestamp.getTimestamp DemoMore.documented)
                 (Timestamp.getTimestamp DemoMore.later) = Lt.
Proof.
  exact (TimestampFacts.getTimestamp_order DemoMore.documented DemoMore.later
           eq_refl eq_refl eq_refl eq_refl).
Defined.

End MoreExamples.
